(** * nut9: classifying one-dimensional five-cell automaton patterns

    A shallow embedding of [nut9.py] (transition table, run-length
    [Pattern] builder, the sliding-buffer evolver [read], the parser
    [toPattern] and the classifier [solve]) together with the properties
    claimed about them. *)

From Stdlib Require Import ZArith Lia Bool Ascii.
From stdpp Require Import base tactics option list numbers strings gmap.

Local Open Scope Z_scope.

(** ** Exceptions

    Python code either returns a value or raises.  [OutOfFuel] is not a
    Python exception: it marks a [while] loop of the model that was given
    too few iterations, and every theorem about a returned value shows
    that it does not occur. *)

Inductive error : Set := ValueError | KeyError | IndexError | OutOfFuel.

Inductive result (A : Type) : Type :=
| Ok (a : A)
| Raise (e : error).
Arguments Ok {A} a.
Arguments Raise {A} e.

#[global] Instance result_ret : MRet result := fun A a => Ok a.

#[global] Instance result_bind : MBind result := fun A B k r =>
  match r with
  | Ok a => k a
  | Raise e => Raise e
  end.

(** A dictionary access [d[k]]. *)
Definition getitem (d : gmap Z bool) (k : Z) : result bool :=
  match d !! k with
  | Some v => Ok v
  | None => Raise KeyError
  end.

(** A list access [l[0]]. *)
Definition first_item (l : list Z) : result Z :=
  match l with
  | x :: _ => Ok x
  | [] => Raise IndexError
  end.

(** ** The transition table: [calculateStates] *)

Fixpoint pos_digits (p : positive) : list ascii :=
  match p with
  | xH => ["1"%char]
  | xO q => pos_digits q ++ ["0"%char]
  | xI q => pos_digits q ++ ["1"%char]
  end.

(** [format(i, '05b')]: the binary digits of [i], most significant first,
    padded with zeros (after the sign) up to five characters. *)
Definition format_05b (i : Z) : list ascii :=
  match i with
  | Z0 => replicate 5 "0"%char
  | Zpos p => replicate (5 - length (pos_digits p)) "0"%char ++ pos_digits p
  | Zneg p => "-"%char :: replicate (4 - length (pos_digits p)) "0"%char ++ pos_digits p
  end.

(** One iteration of the loop body of [calculateStates]. *)
Definition state_of (i : Z) : result bool :=
  let binary := format_05b i in
  let filled := Z.of_nat (length (filter (fun bit => bit = "1"%char) binary)) in
  match binary !! 2%nat with
  | None => Raise IndexError
  | Some c =>
      if decide (c = "0"%char)
      then Ok ((filled =? 2) || (filled =? 3))
      else Ok ((filled =? 3) || (filled =? 5))
  end.

Fixpoint fill_states (range : list Z) (states : gmap Z bool) : result (gmap Z bool) :=
  match range with
  | [] => Ok states
  | i :: rest =>
      v ← state_of i;
      fill_states rest (<[i := v]> states)
  end.

Definition calculateStates : result (gmap Z bool) :=
  fill_states (seqZ 0 32) ∅.

(** ** Patterns and their builder *)

Record Pattern : Set := mkPattern {
  runs : list Z;
  offset : Z;
  count : Z
}.

(** [Pattern(offset)] *)
Definition new_pattern (off : Z) : Pattern :=
  {| runs := []; offset := off; count := 0 |}.

(** [not self.runs and not self.count] *)
Definition untouched (p : Pattern) : bool :=
  match runs p with
  | [] => count p =? 0
  | _ :: _ => false
  end.

Definition insert (p : Pattern) (bit : bool) (steps : Z) : Pattern :=
  if untouched p && negb bit then p
  else
    let filled := (Z.of_nat (length (runs p)) mod 2 =? 0) in
    let p1 :=
      if (filled && negb bit) || (negb filled && bit)
      then {| runs := runs p ++ [count p]; offset := offset p; count := 0 |}
      else p in
    {| runs := runs p1; offset := offset p1; count := count p1 + steps |}.

Definition complete (p : Pattern) : Pattern :=
  if Z.of_nat (length (runs p)) mod 2 =? 0
  then {| runs := runs p ++ [count p]; offset := offset p; count := 0 |}
  else p.

(** ** The parser: [toPattern] *)

Fixpoint parse_chars (input : string) (p : Pattern) : result Pattern :=
  match input with
  | EmptyString => Ok p
  | String c rest =>
      if negb (Ascii.eqb c "#") && negb (Ascii.eqb c ".")
      then Raise ValueError
      else parse_chars rest (insert p (Ascii.eqb c "#") 1)
  end.

Definition toPattern (input : string) : result Pattern :=
  p ← parse_chars input (new_pattern 0);
  Ok (complete p).

(** ** The evolver: [read] *)

(** [(buffer << 1 | bit) & 0b11111] *)
Definition slide (buffer bit : Z) : Z :=
  Z.land (Z.lor (Z.shiftl buffer 1) bit) 31.

(** [(buffer << 1) & 0b11110] *)
Definition slide_out (buffer : Z) : Z :=
  Z.land (Z.shiftl buffer 1) 30.

(** The statement [if not p.runs and not p.count: p.offset += steps]. *)
Definition bump (p : Pattern) (steps : Z) : Pattern :=
  if untouched p
  then {| runs := runs p; offset := offset p + steps; count := count p |}
  else p.

(** The loop [while run > 0] of [read]. *)
Fixpoint while_run (fuel : nat) (states : gmap Z bool)
    (bit run buffer : Z) (p : Pattern) : result (Z * Pattern) :=
  if run >? 0 then
    match fuel with
    | O => Raise OutOfFuel
    | S fuel' =>
        let buffer := slide buffer bit in
        let steps :=
          if (bit + buffer =? 0) || (bit + buffer =? 32) then run else 1 in
        s ← getitem states buffer;
        let p := insert p s steps in
        let p := bump p steps in
        while_run fuel' states bit (run - steps) buffer p
    end
  else Ok (buffer, p).

(** The loop [for run in pattern.runs]; every run gets as many iterations
    of the inner loop as it has cells, which is what the inner loop needs
    at most since each iteration consumes at least one cell. *)
Fixpoint for_runs (states : gmap Z bool) (rs : list Z)
    (bit buffer : Z) (p : Pattern) : result (Z * Pattern) :=
  match rs with
  | [] => Ok (buffer, p)
  | run :: rest =>
      '(buffer, p) ← while_run (Z.to_nat run) states bit run buffer p;
      for_runs states rest ((bit + 1) mod 2) buffer p
  end.

(** The loop [while buffer > 0] that empties the buffer.  [read] gives it
    five iterations: every iteration clears one more low bit of the five
    of the buffer ([while_buffer_drain] below). *)
Fixpoint while_buffer (fuel : nat) (states : gmap Z bool)
    (buffer : Z) (p : Pattern) : result Pattern :=
  if buffer >? 0 then
    match fuel with
    | O => Raise OutOfFuel
    | S fuel' =>
        let buffer := slide_out buffer in
        s ← getitem states buffer;
        while_buffer fuel' states buffer (insert p s 1)
    end
  else Ok p.

Definition read (pattern : Pattern) (states : gmap Z bool) : result Pattern :=
  '(buffer, p) ← for_runs states (runs pattern) 1 0
                    (new_pattern (offset pattern - 2));
  p ← while_buffer 5 states buffer p;
  Ok (complete p).

(** *** The bit-by-bit simulation

    The reference the run-skip shortcut is compared with: the same
    sliding of the buffer over the same runs, always one cell per
    iteration. *)
Fixpoint bitwise_run (fuel : nat) (states : gmap Z bool)
    (bit run buffer : Z) (p : Pattern) : result (Z * Pattern) :=
  if run >? 0 then
    match fuel with
    | O => Raise OutOfFuel
    | S fuel' =>
        let buffer := slide buffer bit in
        s ← getitem states buffer;
        let p := insert p s 1 in
        let p := bump p 1 in
        bitwise_run fuel' states bit (run - 1) buffer p
    end
  else Ok (buffer, p).

Fixpoint bitwise_runs (states : gmap Z bool) (rs : list Z)
    (bit buffer : Z) (p : Pattern) : result (Z * Pattern) :=
  match rs with
  | [] => Ok (buffer, p)
  | run :: rest =>
      '(buffer, p) ← bitwise_run (Z.to_nat run) states bit run buffer p;
      bitwise_runs states rest ((bit + 1) mod 2) buffer p
  end.

Definition read_bitwise (pattern : Pattern) (states : gmap Z bool) : result Pattern :=
  '(buffer, p) ← bitwise_runs states (runs pattern) 1 0
                    (new_pattern (offset pattern - 2));
  p ← while_buffer 5 states buffer p;
  Ok (complete p).

(** ** The classifier: [solve] *)

(** An element of the Python sets [lines] and [patterns]: the sets are
    built by [set(t)] from the integers of a tuple, and receive whole
    tuples through [add]; an integer and a tuple are never equal. *)
Inductive item : Set :=
| Int (z : Z)
| Tuple (t : list Z).

#[global] Instance item_eq_dec : EqDecision item.
Proof. solve_decision. Defined.

#[global] Instance item_countable : Countable item.
Proof.
  refine (inj_countable'
    (fun i => match i with Int z => inl z | Tuple t => inr t end)
    (fun s => match s with inl z => Int z | inr t => Tuple t end) _).
  intros []; reflexivity.
Defined.

(** [set(t)] for a tuple [t]: the set of the elements of [t]. *)
Definition set_of (t : list Z) : gset item :=
  list_to_set (Int <$> t).

(** The loop [for i in range(100)] of [solve], run for the [n] rounds
    that remain. *)
Fixpoint solve_loop (n : nat) (states : gmap Z bool) (pattern : Pattern)
    (lines patterns : gset item) : result string :=
  match n with
  | O => Ok "other"%string
  | S n' =>
      pattern ← read pattern states;
      r0 ← first_item (runs pattern);
      if r0 =? 0 then Ok "vanishing"%string
      else
        let t := offset pattern :: runs pattern in
        if decide (Tuple t ∈ lines) then Ok "blinking"%string
        else
          let lines := lines ∪ {[ Tuple t ]} in
          let t := 0 :: runs pattern in
          if decide (Tuple t ∈ patterns) then Ok "gliding"%string
          else
            let patterns := patterns ∪ {[ Tuple t ]} in
            solve_loop n' states pattern lines patterns
  end.

Definition solve (pattern : Pattern) (states : gmap Z bool) : result string :=
  let t := 0 :: runs pattern in
  let lines := set_of t in
  let patterns := set_of t in
  solve_loop 100 states pattern lines patterns.

(** *** [solve] with a count of its calls of [read]

    The same loop, with the number of times [read] has been called
    threaded through and returned beside the label: the generation at
    which [solve] returns.  [solve_counting_label] below shows that the
    label is that of [solve]. *)
Fixpoint counting_loop (n : nat) (states : gmap Z bool) (pattern : Pattern)
    (lines patterns : gset item) (calls : nat) : result (string * nat) :=
  match n with
  | O => Ok ("other"%string, calls)
  | S n' =>
      pattern ← read pattern states;
      let calls := S calls in
      r0 ← first_item (runs pattern);
      if r0 =? 0 then Ok ("vanishing"%string, calls)
      else
        let t := offset pattern :: runs pattern in
        if decide (Tuple t ∈ lines) then Ok ("blinking"%string, calls)
        else
          let lines := lines ∪ {[ Tuple t ]} in
          let t := 0 :: runs pattern in
          if decide (Tuple t ∈ patterns) then Ok ("gliding"%string, calls)
          else
            let patterns := patterns ∪ {[ Tuple t ]} in
            counting_loop n' states pattern lines patterns calls
  end.

Definition solve_counting (pattern : Pattern) (states : gmap Z bool)
    : result (string * nat) :=
  let t := 0 :: runs pattern in
  let lines := set_of t in
  let patterns := set_of t in
  counting_loop 100 states pattern lines patterns 0.

(** ** The driver: [run] *)

(** What [open('patterns.txt', 'r')] and [f.read().splitlines()] give to
    [run]: the file is missing, it cannot be opened or read for another
    reason, or it is read and split into its lines. *)
Inductive opened : Set :=
| Missing
| Unreadable
| Lines (lines : list string).

(** The loop [for line in ...: print(solve(toPattern(line), states))]:
    the lines it prints, and the exception that ends it, if any. *)
Fixpoint print_labels (states : gmap Z bool) (lines : list string)
    : list string * option error :=
  match lines with
  | [] => ([], None)
  | line :: rest =>
      match (p ← toPattern line; solve p states) with
      | Ok label =>
          let '(printed, raised) := print_labels states rest in
          (label :: printed, raised)
      | Raise e => ([], Some e)
      end
  end.

(** The lines [run] prints.  [elapsed] is the text [print] writes for
    [clock() - start]. *)
Definition run (file : opened) (elapsed : string) : list string :=
  match file with
  | Missing => ["Where's your patterns.txt, sahib?"%string]
  | Unreadable => ["Oops. Something went sideways."%string]
  | Lines lines =>
      match calculateStates with
      | Raise _ => ["Oops. Something went sideways."%string]
      | Ok states =>
          match print_labels states lines with
          | (printed, None) =>
              printed ++ [String.app "Runtime (s) = " elapsed]
          | (printed, Some _) =>
              printed ++ ["Oops. Something went sideways."%string]
          end
      end
  end.

(** ** Vocabulary of the properties *)

(** The table computed by [calculateStates]. *)
Definition table : gmap Z bool :=
  match calculateStates with
  | Ok states => states
  | Raise _ => ∅
  end.

(** The number of set bits among the five low bits of a window. *)
Definition popcount (w : Z) : Z :=
  Z.of_nat (length (filter (fun i => Z.testbit w i = true) (seqZ 0 5))).

(** The closed form of the rule: a blank center is filled by two or three
    filled cells in the window, a filled center stays filled when the
    window holds three or five filled cells. *)
Definition rule (w : Z) : bool :=
  if Z.testbit w 2
  then (popcount w =? 3) || (popcount w =? 5)
  else (popcount w =? 2) || (popcount w =? 3).

(** A sequence of [insert] calls on a builder. *)
Definition inserts (ops : list (bool * Z)) (p : Pattern) : Pattern :=
  fold_left (fun p op => insert p (fst op) (snd op)) ops p.

(** The characters of a string. *)
Fixpoint chars (s : string) : list ascii :=
  match s with
  | EmptyString => []
  | String c rest => c :: chars rest
  end.

(** The [insert] calls [toPattern] makes on an input without foreign
    characters: one cell per character. *)
Definition cell_ops (input : string) : list (bool * Z) :=
  map (fun c => (Ascii.eqb c "#", 1)) (chars input).

(** The cells a run-length list stands for, the first run being of kind
    [bit]; a run that is not positive has no cell. *)
Fixpoint decode_from (bit : bool) (rs : list Z) : list bool :=
  match rs with
  | [] => []
  | r :: rest => replicate (Z.to_nat r) bit ++ decode_from (negb bit) rest
  end.

Definition decode (rs : list Z) : list bool := decode_from true rs.

(** A finalized pattern: either the single entry 0 of the blank line, or
    an odd number of positive runs (filled, blank, ..., filled). *)
Definition finalized (p : Pattern) : Prop :=
  runs p = [0] \/ (Forall (fun r => 0 < r) (runs p) /\ Nat.Odd (length (runs p))).

(** A builder in the middle of a construction made of positive steps. *)
Definition building (p : Pattern) : Prop :=
  Forall (fun r => 0 < r) (runs p) /\ (0 < count p \/ untouched p = true).

(** *** The evolution on the computed table, as pure functions

    On [table] no access of [read] raises, and the loops of
    [read_bitwise] are folds over the decoded cells; [next] is the
    pattern they return ([read_table] below). *)

(** One bit-by-bit iteration of the inner loop of [read], reading cell [b]. *)
Definition emit (st : Z * Pattern) (b : bool) : Z * Pattern :=
  let buffer := slide (fst st) (Z.b2z b) in
  (buffer, bump (insert (snd st) (rule buffer) 1) 1).

(** The loop that empties the buffer. *)
Fixpoint drain (fuel : nat) (buffer : Z) (p : Pattern) : Pattern :=
  if buffer >? 0 then
    match fuel with
    | O => p
    | S fuel' =>
        let buffer := slide_out buffer in
        drain fuel' buffer (insert p (rule buffer) 1)
    end
  else p.

Definition next (pattern : Pattern) : Pattern :=
  let st := fold_left emit (decode (runs pattern))
              (0, new_pattern (offset pattern - 2)) in
  complete (drain 5 (fst st) (snd st)).

(** The number of iterations the emptying loop makes from a buffer. *)
Definition rounds (buffer : Z) : nat :=
  if buffer =? 0 then 0
  else if buffer mod 16 =? 0 then 1
  else if buffer mod 8 =? 0 then 2
  else if buffer mod 4 =? 0 then 3
  else if buffer mod 2 =? 0 then 4
  else 5.

(** *** Lines *)

(** The line that holds the cells [cells] from position [off] on, and
    blanks everywhere else. *)
Definition line_at (off : Z) (cells : list bool) (x : Z) : bool :=
  (off <=? x) && nth (Z.to_nat (x - off)) cells false.

(** The line a pattern stands for: its runs decoded at its offset. *)
Definition cell (p : Pattern) : Z -> bool :=
  line_at (offset p) (decode (runs p)).

(** The line under construction in a builder: the closed runs and the
    run being counted. *)
Definition pending (p : Pattern) : list bool :=
  decode (runs p ++ [count p]).

(** The value of the five-cell window centered on position [x], the
    rightmost cell in the lowest bit. *)
Definition window (line : Z -> bool) (x : Z) : Z :=
  16 * Z.b2z (line (x - 2)) + 8 * Z.b2z (line (x - 1)) + 4 * Z.b2z (line x)
  + 2 * Z.b2z (line (x + 1)) + Z.b2z (line (x + 2)).

(** The buffers [read] can hold while every cell emitted so far is blank,
    and those from which the emptying loop emits blanks only. *)
Definition silent (buffer : Z) : bool :=
  existsb (Z.eqb buffer) [0; 1; 2; 4; 5; 8; 16].

Definition quiet (buffer : Z) : bool :=
  existsb (Z.eqb buffer) [0; 1; 2; 4; 8; 16].

(** *** The construction of the next line

    [buffer] and builder [b] when every cell of the next line before
    position [m] has been emitted.  [synced]: the builder holds exactly
    these cells, from its offset on.  [hushed]: they were all blank, the
    builder was never touched, and the emptying loop will emit blanks
    only. *)
Definition synced (line : Z -> bool) (buffer : Z) (b : Pattern) (m : Z) : Prop :=
  offset b + Z.of_nat (length (pending b)) = m /\
  (forall x, line_at (offset b) (pending b) x = (x <? m) && rule (window line x)) /\
  (untouched b = true -> silent buffer = true).

Definition hushed (line : Z -> bool) (buffer : Z) (b : Pattern) (m : Z) : Prop :=
  untouched b = true /\ quiet buffer = true /\
  forall x, x < m -> rule (window line x) = false.

Definition reading (line : Z -> bool) (st : Z * Pattern) (m : Z) : Prop :=
  fst st = window line (m - 1) /\ building (snd st) /\
  synced line (fst st) (snd st) m.

Definition draining (line : Z -> bool) (buffer : Z) (b : Pattern) (m : Z) : Prop :=
  buffer = window line (m - 1) /\ building b /\
  (synced line buffer b m \/ hushed line buffer b m).

(** A pattern without filled cells. *)
Definition blank_line (p : Pattern) : Prop :=
  Forall (fun c => c = false) (decode (runs p)).

(** A builder in the middle of a construction whose steps are not
    negative: the accumulator is not negative and the first closed run,
    if any, is a positive run of filled cells. *)
Definition counting (p : Pattern) : Prop :=
  0 <= count p /\ match runs p with [] => True | r :: _ => 0 < r end.

(** The first entry of [runs] can be read, and is zero exactly on a
    pattern without filled cells. *)
Definition first_run_tells_blank (p : Pattern) : Prop :=
  exists r0, first_item (runs p) = Ok r0 /\ (r0 = 0 <-> blank_line p).

(** *** Generations and verdicts *)

(** The pattern of generation [i], generation 0 being the initial one. *)
Definition generation (p : Pattern) (i : nat) : Pattern := Nat.iter i next p.

(** The tuples [solve] forms from a pattern. *)
Definition line_key (p : Pattern) : item := Tuple (offset p :: runs p).
Definition shape_key (p : Pattern) : item := Tuple (0 :: runs p).

(** The sets [lines] and [patterns] once generations 1 to [i] have been
    recorded. *)
Definition lines_after (p : Pattern) (i : nat) : gset item :=
  set_of (0 :: runs p)
  ∪ list_to_set (map (fun j => line_key (generation p j)) (seq 1 i)).

Definition patterns_after (p : Pattern) (i : nat) : gset item :=
  set_of (0 :: runs p)
  ∪ list_to_set (map (fun j => shape_key (generation p j)) (seq 1 i)).

(** The condition that triggers at generation [i], if any, the earlier
    generations being recorded: in the order [solve] tests them. *)
Definition verdict_at (p : Pattern) (i : nat) : option string :=
  let g := generation p i in
  match first_item (runs g) with
  | Raise _ => None
  | Ok r0 =>
      if r0 =? 0 then Some "vanishing"%string
      else if decide (line_key g ∈ lines_after p (i - 1)) then Some "blinking"%string
      else if decide (shape_key g ∈ patterns_after p (i - 1)) then Some "gliding"%string
      else None
  end.

(** *** Cells written and cells kept *)

(** The cells a sequence of [insert] calls writes, in order. *)
Definition expand (ops : list (bool * Z)) : list bool :=
  concat (map (fun op => replicate (Z.to_nat (snd op)) (fst op)) ops).

(** A line without its leading blanks, and without the blanks at either
    end. *)
Fixpoint strip (cells : list bool) : list bool :=
  match cells with
  | false :: rest => strip rest
  | _ => cells
  end.

Definition trim (cells : list bool) : list bool :=
  rev (strip (rev (strip cells))).

(** The cells of an input text: '#' is filled, anything else blank. *)
Definition cells_of (input : string) : list bool :=
  map (fun c => Ascii.eqb c "#") (chars input).

(** A pattern moved [k] cells to the right. *)
Definition shift (k : Z) (p : Pattern) : Pattern :=
  {| runs := runs p; offset := offset p + k; count := count p |}.

(** A dictionary with an entry for each of the 32 windows. *)
Definition complete_states (states : gmap Z bool) : Prop :=
  forall w, 0 <= w < 32 -> is_Some (states !! w).

(** A line of '#' and '.' only. *)
Definition well_formed (line : string) : Prop :=
  Forall (fun c => c = "#"%char \/ c = "."%char) (chars line).

(** [label] is what [solve] answers for the text [line]. *)
Definition classified (line label : string) : Prop :=
  (p ← toPattern line; solve p table) = Ok label /\
  label ∈ ["vanishing"; "blinking"; "gliding"; "other"]%string.

(** The mirror image of a pattern: the runs in reverse order, the cell
    at position [x] going to position [- x]. *)
Definition mirror (p : Pattern) : Pattern :=
  {| runs := rev (runs p);
     offset := - (offset p + Z.of_nat (length (decode (runs p))) - 1);
     count := count p |}.

(** The number of blank cells a line begins with, and the number it
    ends with. *)
Fixpoint leading_blanks (cells : list bool) : nat :=
  match cells with
  | false :: rest => S (leading_blanks rest)
  | _ => 0%nat
  end.

Definition trailing_blanks (cells : list bool) : nat :=
  leading_blanks (rev cells).

(** ** Finite checks over the 32 windows *)

Lemma below32 (P : Z -> bool) :
  forallb P (seqZ 0 32) = true -> forall w, 0 <= w < 32 -> P w = true.
Proof.
  intros H w Hw.
  rewrite forallb_forall in H. apply H.
  apply list_elem_of_In, elem_of_seqZ. lia.
Qed.

Lemma calculateStates_table : calculateStates = Ok table.
Proof. vm_compute. reflexivity. Qed.

Lemma table_rule w : 0 <= w < 32 -> table !! w = Some (rule w).
Proof.
  intros Hw.
  apply (below32 (fun w => bool_decide (table !! w = Some (rule w)))) in Hw.
  - apply bool_decide_eq_true in Hw. exact Hw.
  - vm_compute. reflexivity.
Qed.

Lemma getitem_table w : 0 <= w < 32 -> getitem table w = Ok (rule w).
Proof. intros Hw. unfold getitem. rewrite table_rule; auto. Qed.

(** ** The functions on a few inputs *)

Example read_pair :
  (p ← toPattern "##"; read p table)
  = Ok {| runs := [1; 2; 1]; offset := -1; count := 2 |}.
Proof. vm_compute. reflexivity. Qed.

Example read_single :
  (p ← toPattern "#"; read p table)
  = Ok {| runs := [0]; offset := -1; count := 0 |}.
Proof. vm_compute. reflexivity. Qed.

Example solve_single : (p ← toPattern "#"; solve p table) = Ok "vanishing"%string.
Proof. vm_compute. reflexivity. Qed.

Example solve_pair : (p ← toPattern "##"; solve p table) = Ok "blinking"%string.
Proof. vm_compute. reflexivity. Qed.

Example solve_drifting : (p ← toPattern "###.##"; solve p table) = Ok "gliding"%string.
Proof. vm_compute. reflexivity. Qed.

Example solve_foreign : (p ← toPattern "#x."; solve p table) = Raise ValueError.
Proof. vm_compute. reflexivity. Qed.

(** ** C2: the table agrees with the closed form *)

(** C2: for every window value [w] in [0,31], the table computed by
    [calculateStates] has an entry for [w], and that entry is "filled"
    exactly when the center bit (bit 2) is 0 and the window holds 2 or 3
    filled cells, or the center bit is 1 and the window holds 3 or 5. *)
Theorem table_closed_form (states : gmap Z bool) (w : Z) :
  calculateStates = Ok states ->
  0 <= w < 32 ->
  exists v, states !! w = Some v /\
    (v = true <->
       (Z.testbit w 2 = false /\ (popcount w = 2 \/ popcount w = 3)) \/
       (Z.testbit w 2 = true /\ (popcount w = 3 \/ popcount w = 5))).
Proof.
  intros Hs Hw. rewrite calculateStates_table in Hs.
  injection Hs as <-.
  exists (rule w). split; [apply table_rule, Hw|].
  unfold rule. destruct (Z.testbit w 2).
  - rewrite orb_true_iff, !Z.eqb_eq. intuition congruence.
  - rewrite orb_true_iff, !Z.eqb_eq. intuition congruence.
Qed.

Lemma table_closed_form_witness :
  exists v, table !! 11 = Some v /\
    (v = true <->
       (Z.testbit 11 2 = false /\ (popcount 11 = 2 \/ popcount 11 = 3)) \/
       (Z.testbit 11 2 = true /\ (popcount 11 = 3 \/ popcount 11 = 5))).
Proof.
  apply (table_closed_form table 11).
  - vm_compute. reflexivity.
  - lia.
Defined.

(** ** The builder *)

Lemma filled_parity (n : nat) : (Z.of_nat n mod 2 =? 0) = Nat.even n.
Proof.
  rewrite <- Zeven_mod. induction n as [|n IH]; [reflexivity|].
  rewrite Nat2Z.inj_succ, Z.even_succ, Nat.even_succ.
  rewrite <- Nat.negb_even, <- Z.negb_even, IH. reflexivity.
Qed.

Lemma untouched_true p : untouched p = true <-> runs p = [] /\ count p = 0.
Proof.
  unfold untouched. destruct (runs p).
  - rewrite Z.eqb_eq. tauto.
  - split; [discriminate | intros [? _]; discriminate].
Qed.

Lemma insert_offset p bit steps : offset (insert p bit steps) = offset p.
Proof.
  unfold insert.
  destruct (untouched p && negb bit); [reflexivity|].
  destruct (_ || _); reflexivity.
Qed.

Lemma inserts_offset ops p : offset (inserts ops p) = offset p.
Proof.
  revert p. induction ops as [|[b s] ops IH]; intros p; [reflexivity|].
  cbn. unfold inserts in IH. rewrite IH. apply insert_offset.
Qed.

Lemma inserts_app ops1 ops2 p :
  inserts (ops1 ++ ops2) p = inserts ops2 (inserts ops1 p).
Proof. unfold inserts. apply fold_left_app. Qed.

Lemma insert_building p bit steps :
  0 < steps -> building p -> building (insert p bit steps).
Proof.
  intros Hs [Hr Hc]. unfold insert.
  destruct (untouched p && negb bit) eqn:Hu; [split; assumption|].
  destruct (_ || _) eqn:Hflip; unfold building; cbn.
  - split; [|left; lia].
    apply Forall_app. split; [assumption|].
    constructor; [|constructor].
    destruct Hc as [Hc|Hc]; [assumption|].
    rewrite Hc in Hu. cbn in Hu. apply negb_false_iff in Hu. subst bit.
    apply untouched_true in Hc as [Hnil _]. rewrite Hnil in Hflip.
    cbn in Hflip. discriminate.
  - split; [assumption|]. left.
    destruct Hc as [Hc|Hc]; [lia|].
    apply untouched_true in Hc as [_ Hc]. lia.
Qed.

Lemma inserts_building ops p :
  Forall (fun op => 0 < snd op) ops -> building p -> building (inserts ops p).
Proof.
  intros Hops. revert p.
  induction Hops as [|[b s] ops Hs _ IH]; intros p Hp; [exact Hp|].
  cbn. apply IH, insert_building; assumption.
Qed.

Lemma new_pattern_building off : building (new_pattern off).
Proof. split; [constructor | right; reflexivity]. Qed.

Lemma complete_count p :
  count (complete p) = if Nat.even (length (runs p)) then 0 else count p.
Proof.
  unfold complete. rewrite filled_parity.
  destruct (Nat.even _); reflexivity.
Qed.

Lemma complete_offset p : offset (complete p) = offset p.
Proof. unfold complete. destruct (_ =? _); reflexivity. Qed.

Lemma complete_finalized p : building p -> finalized (complete p).
Proof.
  intros [Hr Hc]. unfold complete, finalized. rewrite filled_parity.
  destruct (Nat.even (length (runs p))) eqn:He; cbn.
  - destruct Hc as [Hc|Hc].
    + right. split.
      * apply Forall_app. split; [assumption|]. repeat constructor. assumption.
      * rewrite length_app. cbn. rewrite Nat.add_1_r.
        apply Nat.Odd_succ, Nat.even_spec, He.
    + apply untouched_true in Hc as [-> ->]. left. reflexivity.
  - right. split; [assumption|].
    apply Nat.odd_spec. rewrite <- Nat.negb_even, He. reflexivity.
Qed.

(** ** The parser *)

Lemma parse_chars_ok input p :
  Forall (fun c => c = "#"%char \/ c = "."%char) (chars input) ->
  parse_chars input p = Ok (inserts (cell_ops input) p).
Proof.
  revert p. induction input as [|c rest IH]; intros p Hall; [reflexivity|].
  cbn in Hall. apply Forall_cons in Hall as [Hc Hall].
  cbn. replace (negb (c =? "#")%char && negb (c =? ".")%char) with false.
  - apply IH, Hall.
  - destruct Hc as [-> | ->]; reflexivity.
Qed.

Lemma parse_chars_raise input p e :
  parse_chars input p = Raise e ->
  e = ValueError /\ exists c, c ∈ chars input /\ c <> "#"%char /\ c <> "."%char.
Proof.
  revert p. induction input as [|c rest IH]; intros p; [discriminate|].
  cbn. destruct (negb (c =? "#")%char && negb (c =? ".")%char) eqn:Hbad.
  - intros [= <-]. split; [reflexivity|]. exists c.
    apply andb_true_iff in Hbad as [H1 H2].
    apply negb_true_iff, Ascii.eqb_neq in H1, H2.
    split; [apply list_elem_of_here | split; assumption].
  - intros H. apply IH in H as [-> (c' & Hin & Hne)].
    split; [reflexivity|]. exists c'.
    split; [apply list_elem_of_further, Hin | exact Hne].
Qed.

Lemma parse_chars_valid input p q :
  parse_chars input p = Ok q ->
  Forall (fun c => c = "#"%char \/ c = "."%char) (chars input).
Proof.
  revert p. induction input as [|c rest IH]; intros p; [constructor|].
  cbn. destruct (negb (c =? "#")%char && negb (c =? ".")%char) eqn:Hc; [discriminate|].
  intros Hp. constructor; [|exact (IH _ Hp)].
  apply andb_false_iff in Hc as [Hc|Hc];
    apply negb_false_iff, Ascii.eqb_eq in Hc; auto.
Qed.

Lemma toPattern_ok input :
  Forall (fun c => c = "#"%char \/ c = "."%char) (chars input) ->
  toPattern input = Ok (complete (inserts (cell_ops input) (new_pattern 0))).
Proof.
  intros Hall. unfold toPattern. rewrite parse_chars_ok by exact Hall. reflexivity.
Qed.

Lemma toPattern_inv input p :
  toPattern input = Ok p ->
  p = complete (inserts (cell_ops input) (new_pattern 0)).
Proof.
  intros H. unfold toPattern in H.
  destruct (parse_chars input (new_pattern 0)) as [q|e] eqn:Hp; [|discriminate].
  pose proof (parse_chars_valid _ _ _ Hp) as Hall.
  rewrite parse_chars_ok in Hp by exact Hall.
  cbn in H. congruence.
Qed.

Lemma cell_ops_positive input : Forall (fun op => 0 < snd op) (cell_ops input).
Proof.
  unfold cell_ops. apply Forall_map, Forall_forall. intros c _. cbn. lia.
Qed.

Lemma bump_offset p steps :
  offset (bump p steps) = if untouched p then offset p + steps else offset p.
Proof. unfold bump. destruct (untouched p); reflexivity. Qed.

Lemma insert_untouched p bit steps :
  0 < steps -> building p ->
  untouched (insert p bit steps) = untouched p && negb bit.
Proof.
  intros Hs [_ Hc]. unfold insert.
  destruct (untouched p && negb bit) eqn:Hu.
  - apply andb_true_iff in Hu as [Hu _]. exact Hu.
  - destruct (_ || _) eqn:Hflip; unfold untouched at 1; cbn.
    + destruct (runs p ++ [count p]) eqn:Happ; [|reflexivity].
      apply app_eq_nil in Happ as [_ ?]. discriminate.
    + destruct (runs p) eqn:Hr; [|reflexivity].
      apply Z.eqb_neq.
      destruct Hc as [Hc|Hc]; [lia|].
      apply untouched_true in Hc as [_ Hc]. lia.
Qed.

(** ** C5: parsing examples and the offset of a parsed pattern *)

(** C5, as stated, fails: parsing "..#.#.." does not give offset 2. *)
Lemma toPattern_leading_blanks_not_counted :
  ~ exists p, toPattern "..#.#.." = Ok p /\ runs p = [1; 1; 1] /\ offset p = 2.
Proof.
  intros (p & Hp & _ & Ho). vm_compute in Hp.
  injection Hp as <-. discriminate Ho.
Qed.

(** C5 (amended): parsing "#..##" yields runs [1,2,2] and offset 0, and
    parsing "..#.#.." yields runs [1,1,1] and offset 0.  [insert] never
    changes the offset, so [toPattern] drops the cells before the first
    filled cell without counting them and every parsed pattern has
    offset 0.  It is the construction step of [read] that adds the
    consumed cells to the offset, exactly while no filled cell has been
    emitted yet. *)
Theorem toPattern_offset :
  (exists c, toPattern "#..##" = Ok {| runs := [1; 2; 2]; offset := 0; count := c |}) /\
  (exists c, toPattern "..#.#.." = Ok {| runs := [1; 1; 1]; offset := 0; count := c |}) /\
  (forall p bit steps, offset (insert p bit steps) = offset p) /\
  (forall input p, toPattern input = Ok p -> offset p = 0) /\
  (forall p bit steps, 0 < steps -> building p ->
     offset (bump (insert p bit steps) steps) =
       if untouched p && negb bit then offset p + steps else offset p).
Proof.
  split; [exists 0; reflexivity|].
  split; [exists 2; reflexivity|].
  split; [apply insert_offset|].
  split.
  - intros input p Hp. apply toPattern_inv in Hp. subst p.
    rewrite complete_offset, inserts_offset. reflexivity.
  - intros p bit steps Hs Hp.
    rewrite bump_offset, insert_untouched, insert_offset by assumption.
    reflexivity.
Qed.

Lemma toPattern_offset_witness :
  offset (complete (inserts (cell_ops "..#.#..") (new_pattern 0))) = 0 /\
  offset (bump (insert (new_pattern 5) false 3) 3) = 8.
Proof.
  destruct toPattern_offset as (_ & _ & _ & Hzero & Hbump).
  split.
  - apply (Hzero "..#.#.."%string). reflexivity.
  - rewrite (Hbump (new_pattern 5) false 3).
    + reflexivity.
    + lia.
    + apply new_pattern_building.
Defined.

(** ** C8: when [toPattern] raises *)

(** C8: [toPattern] raises exactly when the input holds a character other
    than '#' and '.', the exception being [ValueError]; on an input made
    of '#' and '.' only it returns a finalized pattern. *)
Theorem toPattern_raises_iff (input : string) :
  ((exists e, toPattern input = Raise e) <->
     (exists c, c ∈ chars input /\ c <> "#"%char /\ c <> "."%char)) /\
  (forall e, toPattern input = Raise e -> e = ValueError) /\
  (Forall (fun c => c = "#"%char \/ c = "."%char) (chars input) ->
     exists p, toPattern input = Ok p /\ finalized p).
Proof.
  assert (Hraise : forall e, toPattern input = Raise e ->
            e = ValueError /\
            exists c, c ∈ chars input /\ c <> "#"%char /\ c <> "."%char).
  { intros e He. unfold toPattern in He.
    destruct (parse_chars input (new_pattern 0)) as [q|e'] eqn:Hp; [discriminate|].
    cbn in He. injection He as <-. exact (parse_chars_raise _ _ _ Hp). }
  split; [split|split].
  - intros [e He]. exact (proj2 (Hraise e He)).
  - intros (c & Hin & Hne1 & Hne2).
    destruct (toPattern input) as [p|e] eqn:Hp; [|exists e; reflexivity].
    exfalso. unfold toPattern in Hp.
    destruct (parse_chars input (new_pattern 0)) as [q|e'] eqn:Hq; [|discriminate].
    apply parse_chars_valid in Hq. rewrite Forall_forall in Hq.
    destruct (Hq c Hin); contradiction.
  - intros e He. exact (proj1 (Hraise e He)).
  - intros Hall. eexists. split; [apply toPattern_ok, Hall|].
    apply complete_finalized, inserts_building;
      [apply cell_ops_positive | apply new_pattern_building].
Qed.

Lemma toPattern_raises_iff_witness :
  (exists e, toPattern "#x." = Raise e) /\
  (exists p, toPattern "#..##" = Ok p /\ finalized p).
Proof.
  split.
  - apply (proj1 (toPattern_raises_iff "#x.")).
    exists "x"%char. split; [|split; discriminate].
    cbn. apply list_elem_of_further, list_elem_of_here.
  - apply (proj2 (proj2 (toPattern_raises_iff "#..##"))).
    cbn. repeat (apply Forall_cons; split; [first [by left | by right]|]).
    apply Forall_nil_2.
Defined.

(** ** The loops of [read] *)

Lemma bind_ok {A B : Type} (a : A) (k : A -> result B) : (Ok a ≫= k) = k a.
Proof. reflexivity. Qed.

Lemma insert_eq p bit steps :
  insert p bit steps =
    if untouched p && negb bit then p
    else if Bool.eqb (Nat.even (length (runs p))) bit
         then {| runs := runs p; offset := offset p; count := count p + steps |}
         else {| runs := runs p ++ [count p]; offset := offset p; count := steps |}.
Proof.
  unfold insert. rewrite filled_parity.
  destruct (untouched p && negb bit); [reflexivity|].
  destruct (Nat.even (length (runs p))), bit; reflexivity.
Qed.

Lemma bump_building p steps : building p -> building (bump p steps).
Proof.
  unfold bump. destruct (untouched p) eqn:Hu; [|tauto].
  intros [Hr _]. split; [exact Hr|]. right. exact Hu.
Qed.

Lemma slide_range buffer bit : 0 <= slide buffer bit < 32.
Proof.
  unfold slide. change 31 with (Z.ones 5).
  rewrite Z.land_ones by lia. apply Z.mod_pos_bound. lia.
Qed.

Lemma slide_fixed bit buffer :
  0 <= bit <= 1 -> 0 <= buffer < 32 ->
  (bit + buffer =? 0) || (bit + buffer =? 32) = true ->
  slide buffer bit = buffer.
Proof.
  intros Hbit Hbuf H. apply orb_true_iff in H. rewrite !Z.eqb_eq in H.
  assert (Hc : bit = 0 /\ buffer = 0 \/ bit = 1 /\ buffer = 31) by lia.
  destruct Hc as [[-> ->]|[-> ->]]; reflexivity.
Qed.

(** Inserting a run at once is inserting it piece by piece. *)
Lemma insert_split p s a b :
  building p -> 0 < a -> 0 < b ->
  bump (insert (bump (insert p s a) a) s b) b = bump (insert p s (a + b)) (a + b).
Proof.
  intros Hp Ha Hb.
  assert (Hc : 0 <= count p).
  { destruct Hp as [_ [H|H]]; [lia|]. apply untouched_true in H as [_ H]. lia. }
  destruct (untouched p && negb s) eqn:Hu.
  - rewrite !(insert_eq p), Hu.
    apply andb_true_iff in Hu as [Hu Hs].
    unfold bump at 2. rewrite Hu.
    set (p1 := {| runs := runs p; offset := offset p + a; count := count p |}).
    assert (Hu1 : untouched p1 = true) by exact Hu.
    rewrite insert_eq, Hu1, Hs. cbn.
    unfold bump. rewrite Hu1, Hu. cbn. f_equal. lia.
  - assert (H1 : untouched (insert p s a) = false)
      by (rewrite insert_untouched; assumption).
    assert (H2 : untouched (insert p s (a + b)) = false)
      by (rewrite insert_untouched; [assumption | lia | assumption]).
    unfold bump at 2. rewrite H1. unfold bump at 2. rewrite H2.
    assert (H3 : insert (insert p s a) s b = insert p s (a + b)).
    { rewrite (insert_eq (insert p s a)), H1. cbn.
      rewrite !(insert_eq p), Hu.
      destruct (Bool.eqb (Nat.even (length (runs p))) s) eqn:He; cbn.
      - rewrite He. f_equal. lia.
      - rewrite length_app. cbn. rewrite Nat.add_1_r, Nat.even_succ, <- Nat.negb_even.
        destruct (Nat.even (length (runs p))), s; try discriminate; cbn; reflexivity. }
    rewrite H3. unfold bump. rewrite H2. reflexivity.
Qed.

Lemma bitwise_run_building fuel states bit run buffer p buffer' p' :
  bitwise_run fuel states bit run buffer p = Ok (buffer', p') ->
  building p -> building p'.
Proof.
  revert run buffer p.
  induction fuel as [|fuel IH]; intros run buffer p; cbn;
    destruct (run >? 0) eqn:Hrun; try discriminate;
    try (intros [= <- <-]; tauto).
  destruct (getitem states (slide buffer bit)) as [s|e]; [cbn|discriminate].
  intros H Hp. apply IH in H; [exact H|].
  apply bump_building, insert_building; [lia | exact Hp].
Qed.

(** A run read while the buffer no longer changes: the bit-by-bit loop
    inserts the cells of the run one at a time. *)
Lemma bitwise_run_constant fuel states bit run buffer b s p :
  slide buffer bit = b -> slide b bit = b -> getitem states b = Ok s ->
  0 < run -> (Z.to_nat run <= fuel)%nat -> building p ->
  bitwise_run fuel states bit run buffer p = Ok (b, bump (insert p s run) run).
Proof.
  revert run buffer p.
  induction fuel as [|fuel IH]; intros run buffer p Hb Hfix Hs Hrun Hfuel Hp; [lia|].
  cbn. rewrite (proj2 (Z.gtb_lt run 0)) by lia. rewrite Hb, Hs. cbn.
  destruct (decide (run = 1)) as [->|Hne].
  - destruct fuel; reflexivity.
  - rewrite (IH (run - 1) b); try assumption; try lia.
    + rewrite insert_split by (assumption || lia).
      replace (1 + (run - 1)) with run by lia. reflexivity.
    + apply bump_building, insert_building; [lia | exact Hp].
Qed.

Lemma while_run_skip fuel states bit run buffer p :
  0 <= bit <= 1 -> building p -> (Z.to_nat run <= fuel)%nat ->
  while_run fuel states bit run buffer p
  = bitwise_run fuel states bit run buffer p.
Proof.
  intros Hbit. revert run buffer p.
  induction fuel as [|fuel IH]; intros run buffer p Hp Hfuel; [reflexivity|].
  cbn. destruct (run >? 0) eqn:Hrun; [|reflexivity].
  apply Z.gtb_lt in Hrun.
  pose proof (slide_range buffer bit) as Hrange.
  destruct ((bit + slide buffer bit =? 0) || (bit + slide buffer bit =? 32)) eqn:Hskip.
  - pose proof (slide_fixed _ _ Hbit Hrange Hskip) as Hfix.
    destruct (getitem states (slide buffer bit)) as [s|e] eqn:Hs; [cbn|reflexivity].
    rewrite Z.sub_diag.
    replace (while_run fuel states bit 0 (slide buffer bit)
               (bump (insert p s run) run))
      with (Ok (A:=Z * Pattern) (slide buffer bit, bump (insert p s run) run))
      by (destruct fuel; reflexivity).
    destruct (decide (run = 1)) as [->|Hne].
    + destruct fuel; reflexivity.
    + rewrite (bitwise_run_constant fuel states bit (run - 1) _ (slide buffer bit) s);
        try assumption; try lia.
      * rewrite insert_split by (assumption || lia).
        replace (1 + (run - 1)) with run by lia. reflexivity.
      * apply bump_building, insert_building; [lia | exact Hp].
  - destruct (getitem states (slide buffer bit)) as [s|e] eqn:Hs; [cbn|reflexivity].
    apply IH; [|lia].
    apply bump_building, insert_building; [lia | exact Hp].
Qed.

Lemma for_runs_skip states rs bit buffer p :
  0 <= bit <= 1 -> building p ->
  for_runs states rs bit buffer p = bitwise_runs states rs bit buffer p.
Proof.
  revert bit buffer p.
  induction rs as [|run rs IH]; intros bit buffer p Hbit Hp; [reflexivity|].
  cbn. rewrite while_run_skip by (assumption || lia).
  destruct (bitwise_run _ _ _ _ _ _) as [[buffer' p']|e] eqn:Hw; [cbn|reflexivity].
  apply IH.
  - pose proof (Z.mod_pos_bound (bit + 1) 2). lia.
  - exact (bitwise_run_building _ _ _ _ _ _ _ _ Hw Hp).
Qed.

Lemma read_skip pattern states :
  read pattern states = read_bitwise pattern states.
Proof.
  unfold read, read_bitwise.
  rewrite for_runs_skip by (lia || apply new_pattern_building).
  reflexivity.
Qed.

(** ** [read] on the computed table *)

Lemma bitwise_run_table fuel (b : bool) run buffer p :
  (Z.to_nat run <= fuel)%nat ->
  bitwise_run fuel table (Z.b2z b) run buffer p
  = Ok (fold_left emit (replicate (Z.to_nat run) b) (buffer, p)).
Proof.
  revert run buffer p.
  induction fuel as [|fuel IH]; intros run buffer p Hfuel; cbn.
  - assert (Hrun : run <= 0) by lia.
    destruct (run >? 0) eqn:H; [apply Z.gtb_lt in H; lia|].
    replace (Z.to_nat run) with 0%nat by lia. reflexivity.
  - destruct (run >? 0) eqn:H.
    + apply Z.gtb_lt in H.
      replace (Z.to_nat run) with (S (Z.to_nat (run - 1))) by lia.
      rewrite getitem_table by apply slide_range. cbn.
      rewrite IH by lia. reflexivity.
    + assert (Hrun : run <= 0) by (destruct (Z.gtb_spec run 0); [discriminate | lia]).
      replace (Z.to_nat run) with 0%nat by lia. reflexivity.
Qed.

Lemma bitwise_runs_table rs (b : bool) buffer p :
  bitwise_runs table rs (Z.b2z b) buffer p
  = Ok (fold_left emit (decode_from b rs) (buffer, p)).
Proof.
  revert b buffer p.
  induction rs as [|run rs IH]; intros b buffer p; [reflexivity|].
  cbn. rewrite bitwise_run_table by lia. cbn.
  rewrite fold_left_app.
  destruct (fold_left emit (replicate (Z.to_nat run) b) (buffer, p)) as [buffer' p'].
  replace ((Z.b2z b + 1) mod 2) with (Z.b2z (negb b)) by (destruct b; reflexivity).
  apply IH.
Qed.

Lemma emit_range bits st :
  0 <= fst st < 32 -> 0 <= fst (fold_left emit bits st) < 32.
Proof.
  revert st. induction bits as [|b bits IH]; intros st Hst; [exact Hst|].
  cbn. apply IH. cbn. apply slide_range.
Qed.

Lemma slide_out_facts buffer :
  0 <= buffer < 32 ->
  0 <= slide_out buffer < 32 /\
  slide_out buffer = slide buffer 0 /\
  (0 < buffer -> (rounds (slide_out buffer) < rounds buffer)%nat) /\
  (rounds buffer <= 5)%nat /\
  (rounds buffer = 0%nat -> buffer = 0).
Proof.
  intros H.
  apply (below32 (fun w =>
    (0 <=? slide_out w) && (slide_out w <? 32) && (slide_out w =? slide w 0)
    && ((w =? 0) || (rounds (slide_out w) <? rounds w)%nat)
    && (rounds w <=? 5)%nat
    && ((w =? 0) || negb (rounds w =? 0)%nat))) in H; [|vm_compute; reflexivity].
  repeat (apply andb_true_iff in H as [H ?]).
  repeat match goal with
  | H : (_ || _) = true |- _ => apply orb_true_iff in H
  | H : _ |- _ => rewrite Z.eqb_eq in H
  | H : _ |- _ => rewrite Z.leb_le in H
  | H : _ |- _ => rewrite Z.ltb_lt in H
  | H : _ |- _ => rewrite Nat.ltb_lt in H
  | H : _ |- _ => rewrite Nat.leb_le in H
  | H : _ |- _ => rewrite negb_true_iff, Nat.eqb_neq in H
  end.
  repeat split; try assumption; try lia.
Qed.

Lemma while_buffer_drain fuel buffer p :
  (rounds buffer <= fuel)%nat -> 0 <= buffer < 32 ->
  while_buffer fuel table buffer p = Ok (drain fuel buffer p).
Proof.
  revert buffer p.
  induction fuel as [|fuel IH]; intros buffer p Hfuel Hb;
    destruct (slide_out_facts buffer Hb) as (Hr & _ & Hdec & _ & Hzero); cbn.
  - rewrite Hzero by lia. reflexivity.
  - destruct (buffer >? 0) eqn:H; [|reflexivity].
    apply Z.gtb_lt in H.
    rewrite getitem_table by exact Hr. cbn.
    apply IH; [|exact Hr]. specialize (Hdec H). lia.
Qed.

Lemma read_bitwise_table pattern : read_bitwise pattern table = Ok (next pattern).
Proof.
  unfold read_bitwise, next.
  rewrite (bitwise_runs_table (runs pattern) true). fold (decode (runs pattern)).
  pose proof (emit_range (decode (runs pattern))
                (0, new_pattern (offset pattern - 2)) ltac:(cbn; lia)) as Hr.
  destruct (fold_left emit _ _) as [buffer p]. rewrite bind_ok.
  cbn [fst snd] in *.
  rewrite while_buffer_drain; [reflexivity | | exact Hr].
  apply slide_out_facts, Hr.
Qed.

Lemma read_table pattern : read pattern table = Ok (next pattern).
Proof. rewrite read_skip. apply read_bitwise_table. Qed.

(** ** C3: the run-skip shortcut *)

(** C3: whatever the pattern, [read] with its run-skip shortcut and the
    bit-by-bit simulation of the same sliding buffer give the same
    outcome on every table; on the computed table both return the same
    pattern (same runs, same offset). *)
Theorem skip_shortcut_equivalence (pattern : Pattern) :
  (forall states, read pattern states = read_bitwise pattern states) /\
  (exists q, read pattern table = Ok q /\
             read_bitwise pattern table = Ok q).
Proof.
  split.
  - intros states. apply read_skip.
  - exists (next pattern). split; [apply read_table | apply read_bitwise_table].
Qed.

(** ** The first run of a completed pattern *)

Lemma building_counting p : building p -> counting p.
Proof.
  intros [Hr Hc]. split.
  - destruct Hc as [Hc|Hc]; [lia|]. apply untouched_true in Hc as [_ Hc]. lia.
  - destruct (runs p) as [|r rs]; [exact I|]. apply Forall_cons in Hr. tauto.
Qed.

Lemma insert_counting p bit steps :
  0 <= steps -> counting p -> counting (insert p bit steps).
Proof.
  intros Hs [Hc Hr]. rewrite insert_eq.
  destruct (untouched p && negb bit) eqn:Hu; [split; assumption|].
  destruct (Bool.eqb _ _) eqn:He; unfold counting; cbn.
  - split; [lia | exact Hr].
  - split; [exact Hs|].
    destruct (runs p) as [|r rs] eqn:Hrs; [cbn | exact Hr].
    unfold untouched in Hu. rewrite Hrs in Hu. cbn in He.
    destruct bit; [discriminate|]. cbn in Hu.
    rewrite andb_true_r in Hu. apply Z.eqb_neq in Hu. lia.
Qed.

Lemma inserts_counting ops p :
  Forall (fun op => 0 <= snd op) ops -> counting p -> counting (inserts ops p).
Proof.
  intros Hops. revert p.
  induction Hops as [|[b s] ops Hs _ IH]; intros p Hp; [exact Hp|].
  cbn. apply IH, insert_counting; assumption.
Qed.

Lemma decode_filled_head r rs :
  0 < r -> ~ Forall (fun c => c = false) (decode (r :: rs)).
Proof.
  intros Hr H. unfold decode in H. cbn in H.
  replace (Z.to_nat r) with (S (Z.to_nat (r - 1))) in H by lia.
  cbn in H. apply Forall_cons in H as [H _]. discriminate.
Qed.

Lemma complete_first p : counting p -> first_run_tells_blank (complete p).
Proof.
  intros [Hc Hr]. unfold first_run_tells_blank, blank_line, complete.
  rewrite filled_parity.
  destruct (runs p) as [|r rs] eqn:Hrs; cbn.
  - exists (count p). split; [reflexivity|].
    unfold decode. cbn. rewrite app_nil_r. split.
    + intros ->. constructor.
    + intros H. destruct (decide (count p = 0)) as [|Hne]; [assumption|].
      exfalso. replace (Z.to_nat (count p)) with (S (Z.to_nat (count p - 1))) in H by lia.
      cbn in H. apply Forall_cons in H as [H _]. discriminate.
  - exists r.
    assert (Hhead : forall l, first_item (r :: l) = Ok r /\
              (r = 0 <-> Forall (fun c => c = false) (decode (r :: l)))).
    { intros l. split; [reflexivity|]. split; [lia|].
      intros H. exfalso. exact (decode_filled_head r l Hr H). }
    destruct (match length rs with O => _ | S _ => _ end); cbn; [|rewrite Hrs];
      apply Hhead.
Qed.

Lemma emit_building bits st :
  building (snd st) -> building (snd (fold_left emit bits st)).
Proof.
  revert st. induction bits as [|b bits IH]; intros st Hst; [exact Hst|].
  cbn. apply IH. cbn. apply bump_building, insert_building; [lia | exact Hst].
Qed.

Lemma drain_building fuel buffer p : building p -> building (drain fuel buffer p).
Proof.
  revert buffer p. induction fuel as [|fuel IH]; intros buffer p Hp; cbn;
    destruct (buffer >? 0); try exact Hp.
  apply IH, insert_building; [lia | exact Hp].
Qed.

Lemma next_building pattern :
  exists b, building b /\ next pattern = complete b.
Proof.
  eexists. split; [|reflexivity].
  apply drain_building, emit_building. cbn. apply new_pattern_building.
Qed.

Lemma next_finalized pattern : finalized (next pattern).
Proof.
  destruct (next_building pattern) as (b & Hb & ->). apply complete_finalized, Hb.
Qed.

Lemma next_first pattern : first_run_tells_blank (next pattern).
Proof.
  destruct (next_building pattern) as (b & Hb & ->).
  apply complete_first, building_counting, Hb.
Qed.

(** ** The classifier *)

Lemma counting_loop_S n states pattern lines patterns calls :
  counting_loop (S n) states pattern lines patterns calls =
    (pattern ← read pattern states;
     r0 ← first_item (runs pattern);
     if r0 =? 0 then Ok ("vanishing"%string, S calls)
     else if decide (line_key pattern ∈ lines) then Ok ("blinking"%string, S calls)
     else if decide (shape_key pattern ∈ patterns) then Ok ("gliding"%string, S calls)
     else counting_loop n states pattern (lines ∪ {[ line_key pattern ]})
            (patterns ∪ {[ shape_key pattern ]}) (S calls)).
Proof. reflexivity. Qed.

(** Erasing the count of [counting_loop] gives [solve_loop]. *)
Lemma counting_loop_label n states : forall pattern lines patterns calls,
  solve_loop n states pattern lines patterns
  = ('(label, _) ← counting_loop n states pattern lines patterns calls; Ok label).
Proof.
  induction n as [|n IH]; intros pattern lines patterns calls; [reflexivity|].
  cbn [solve_loop counting_loop].
  destruct (read pattern states) as [q|e]; [rewrite !bind_ok|reflexivity].
  destruct (first_item (runs q)) as [r0|e]; [rewrite !bind_ok|reflexivity].
  destruct (r0 =? 0); [reflexivity|].
  destruct (decide _); [reflexivity|].
  destruct (decide _); [reflexivity|].
  apply IH.
Qed.

Lemma solve_counting_label pattern states :
  solve pattern states
  = ('(label, _) ← solve_counting pattern states; Ok label).
Proof. apply counting_loop_label. Qed.

Lemma lines_after_S p i :
  lines_after p (S i) = lines_after p i ∪ {[ line_key (generation p (S i)) ]}.
Proof.
  unfold lines_after. rewrite seq_S, map_app, list_to_set_app_L. cbn [map].
  cbn [list_to_set]. rewrite (right_id_L ∅ (∪)), (assoc_L (∪)). reflexivity.
Qed.

Lemma patterns_after_S p i :
  patterns_after p (S i) = patterns_after p i ∪ {[ shape_key (generation p (S i)) ]}.
Proof.
  unfold patterns_after. rewrite seq_S, map_app, list_to_set_app_L. cbn [map].
  cbn [list_to_set]. rewrite (right_id_L ∅ (∪)), (assoc_L (∪)). reflexivity.
Qed.

Lemma generation_read p i :
  read (generation p i) table = Ok (generation p (S i)).
Proof. apply read_table. Qed.

Lemma verdict_at_label p i label :
  verdict_at p i = Some label ->
  label = "vanishing"%string \/ label = "blinking"%string \/ label = "gliding"%string.
Proof.
  unfold verdict_at. destruct (first_item _) as [r0|]; [|discriminate].
  destruct (r0 =? 0); [intros [= <-]; auto|].
  destruct (decide _); [intros [= <-]; auto|].
  destruct (decide _); [intros [= <-]; auto|discriminate].
Qed.

Lemma counting_loop_spec p n : forall i,
  (forall j, (1 <= j <= i)%nat -> verdict_at p j = None) ->
  exists label calls,
    counting_loop n table (generation p i) (lines_after p i) (patterns_after p i) i
      = Ok (label, calls) /\
    ((label = "other"%string /\ calls = (i + n)%nat /\
      forall j, (1 <= j <= i + n)%nat -> verdict_at p j = None)
     \/ ((i < calls <= i + n)%nat /\ verdict_at p calls = Some label /\
         forall j, (1 <= j < calls)%nat -> verdict_at p j = None)).
Proof.
  induction n as [|n IH]; intros i Hnone.
  - exists "other"%string, i. split; [reflexivity|]. left.
    rewrite Nat.add_0_r. auto.
  - rewrite counting_loop_S, generation_read, bind_ok.
    set (g := generation p (S i)).
    assert (Hv : verdict_at p (S i) =
      match first_item (runs g) with
      | Raise _ => None
      | Ok r0 =>
          if r0 =? 0 then Some "vanishing"%string
          else if decide (line_key g ∈ lines_after p i) then Some "blinking"%string
          else if decide (shape_key g ∈ patterns_after p i) then Some "gliding"%string
          else None
      end).
    { unfold verdict_at. fold g. replace (S i - 1)%nat with i by lia. reflexivity. }
    assert (Hearlier : forall j, (1 <= j < S i)%nat -> verdict_at p j = None)
      by (intros j Hj; apply Hnone; lia).
    destruct (next_first (generation p i)) as (r0 & Hr0 & _).
    change (next (generation p i)) with g in Hr0.
    rewrite Hr0 in Hv. rewrite Hr0, bind_ok.
    destruct (r0 =? 0).
    { exists "vanishing"%string, (S i). split; [reflexivity|]. right.
      split; [lia|]. split; assumption. }
    destruct (decide (line_key g ∈ lines_after p i)).
    { exists "blinking"%string, (S i). split; [reflexivity|]. right.
      split; [lia|]. split; assumption. }
    destruct (decide (shape_key g ∈ patterns_after p i)).
    { exists "gliding"%string, (S i). split; [reflexivity|]. right.
      split; [lia|]. split; assumption. }
    rewrite <- lines_after_S, <- patterns_after_S.
    destruct (IH (S i)) as (label & calls & Hloop & Hcases).
    { intros j Hj. destruct (decide (j = S i)) as [->|]; [exact Hv|].
      apply Hnone. lia. }
    exists label, calls. split; [exact Hloop|].
    destruct Hcases as [(Hl & Hc & Hall)|(Hc & Hlab & Hbefore)].
    + left. split; [exact Hl|]. split; [lia|].
      intros j Hj. apply Hall. lia.
    + right. split; [lia|]. split; assumption.
Qed.

Lemma solve_counting_spec (pattern : Pattern) :
  exists label calls,
    solve_counting pattern table = Ok (label, calls) /\
    solve pattern table = Ok label /\
    (1 <= calls <= 100)%nat /\
    label ∈ ["vanishing"; "blinking"; "gliding"; "other"]%string /\
    (label = "other"%string <->
       forall i, (1 <= i <= 100)%nat -> verdict_at pattern i = None) /\
    (label <> "other"%string ->
       verdict_at pattern calls = Some label /\
       forall j, (1 <= j < calls)%nat -> verdict_at pattern j = None).
Proof.
  destruct (counting_loop_spec pattern 100 0) as (label & calls & Hloop & Hcases).
  { intros j Hj. lia. }
  assert (Hseed : forall (A : Type) (f : nat -> A), map f (seq 1 0) = [])
    by reflexivity.
  assert (Hcount : solve_counting pattern table = Ok (label, calls)).
  { unfold solve_counting. rewrite <- Hloop. f_equal.
    - unfold lines_after. rewrite Hseed. cbn [list_to_set].
      rewrite (right_id_L ∅ (∪)). reflexivity.
    - unfold patterns_after. rewrite Hseed. cbn [list_to_set].
      rewrite (right_id_L ∅ (∪)). reflexivity. }
  exists label, calls. split; [exact Hcount|].
  split; [rewrite solve_counting_label, Hcount; reflexivity|].
  destruct Hcases as [(Hl & Hc & Hall)|(Hc & Hlab & Hbefore)].
  - subst label. split; [lia|].
    split; [repeat constructor|].
    split; [|intros H; contradiction].
    split; [intros _; exact Hall | reflexivity].
  - pose proof (verdict_at_label _ _ _ Hlab) as Hthree.
    split; [lia|].
    split; [destruct Hthree as [->|[->| ->]]; repeat constructor|].
    split; [|intros _; split; assumption].
    split.
    + intros ->. destruct Hthree as [?|[?|?]]; discriminate.
    + intros Hall. rewrite Hall in Hlab by lia. discriminate.
Qed.

(** ** C6: [solve] is bounded and returns one of four labels *)

(** C6: on the computed table every generation is computed by one call
    of [read] that returns; [solve] returns after at least one and at
    most 100 calls of [read], its label is one of 'vanishing',
    'blinking', 'gliding' and 'other', and it is 'other' exactly when
    none of the three conditions triggers at any of the generations 1 to
    100.  A label other than 'other' is the condition that triggers at
    the generation where [solve] stops, the first one with a verdict. *)
Theorem solve_bounded (pattern : Pattern) :
  (forall i, read (generation pattern i) table = Ok (generation pattern (S i))) /\
  exists label calls,
    solve_counting pattern table = Ok (label, calls) /\
    solve pattern table = Ok label /\
    (1 <= calls <= 100)%nat /\
    label ∈ ["vanishing"; "blinking"; "gliding"; "other"]%string /\
    (label = "other"%string <->
       forall i, (1 <= i <= 100)%nat -> verdict_at pattern i = None) /\
    (label <> "other"%string ->
       verdict_at pattern calls = Some label /\
       forall j, (1 <= j < calls)%nat -> verdict_at pattern j = None).
Proof.
  split; [intros i; apply generation_read | apply solve_counting_spec].
Qed.


Lemma solve_bounded_witness :
  verdict_at (new_pattern 0) 1 = Some "vanishing"%string.
Proof.
  destruct (solve_bounded (new_pattern 0))
    as (_ & label & calls & Hcount & _ & _ & _ & _ & Hverdict).
  vm_compute in Hcount. injection Hcount as <- <-.
  apply Hverdict. discriminate.
Defined.

(** ** C10: the first run of a completed pattern *)

(** C10: a pattern returned by [complete] after [insert] calls whose
    steps are not negative has a first run, and this run is zero exactly
    when the pattern has no filled cell; so have the patterns returned
    by [read] and by [toPattern], and [solve] always returns a label:
    its access to [runs[0]] never fails. *)
Theorem first_run_access :
  (forall ops off, Forall (fun op => 0 <= snd op) ops ->
     first_run_tells_blank (complete (inserts ops (new_pattern off)))) /\
  (forall pattern, exists q,
     read pattern table = Ok q /\ first_run_tells_blank q) /\
  (forall input q, toPattern input = Ok q -> first_run_tells_blank q) /\
  (forall pattern, exists label, solve pattern table = Ok label).
Proof.
  split; [|split; [|split]].
  - intros ops off Hops. apply complete_first, inserts_counting; [exact Hops|].
    split; cbn; [lia | exact I].
  - intros pattern. exists (next pattern).
    split; [apply read_table | apply next_first].
  - intros input q Hq. apply toPattern_inv in Hq. subst q.
    apply complete_first, inserts_counting.
    + eapply Forall_impl; [apply cell_ops_positive|]. cbn. intros; lia.
    + split; cbn; [lia | exact I].
  - intros pattern.
    destruct (solve_counting_spec pattern) as (label & _ & _ & Hsolve & _).
    exists label. exact Hsolve.
Qed.

Lemma first_run_access_witness :
  first_run_tells_blank (complete (inserts [(false, 2); (true, 3)] (new_pattern 0))) /\
  first_run_tells_blank {| runs := [1; 1; 1]; offset := 0; count := 2 |}.
Proof.
  destruct first_run_access as (Hcomplete & _ & Hparse & _).
  split.
  - apply (Hcomplete [(false, 2); (true, 3)] 0).
    repeat (apply Forall_cons; split; [cbn; lia|]). apply Forall_nil_2.
  - apply (Hparse "..#.#.."%string). reflexivity.
Defined.

(** ** C4: what the sets are seeded with *)

Lemma set_of_no_tuple (t t' : list Z) : Tuple t ∉ set_of t'.
Proof.
  unfold set_of. rewrite elem_of_list_to_set, list_elem_of_fmap.
  intros (z & Hz & _). discriminate.
Qed.

(** C4 does not hold of the code: [set(t)] seeds both sets with the
    integers of the tuple, not with the tuple.  The pattern parsed from
    "###.#" comes back one cell to the side after one generation, with
    the same runs; its tuple is in neither seeded set, and [solve]
    answers 'gliding' at generation 2, when the shape recorded at
    generation 1 returns. *)
Theorem solve_seed_glider :
  exists p q,
    toPattern "###.#" = Ok p /\
    read p table = Ok q /\
    runs q = runs p /\ offset q <> offset p /\
    (Tuple (offset p :: runs p) ∉ set_of (0 :: runs p)) /\
    (Tuple (0 :: runs p) ∉ set_of (0 :: runs p)) /\
    solve_counting p table = Ok ("gliding"%string, 2%nat).
Proof.
  eexists. eexists.
  split; [reflexivity|].
  split; [rewrite read_table; reflexivity|].
  split; [vm_compute; reflexivity|].
  split; [vm_compute; discriminate|].
  split; [apply set_of_no_tuple|].
  split; [apply set_of_no_tuple|].
  vm_compute. reflexivity.
Qed.

(** ** C7: the blank line is absorbing *)

Lemma emit_blank (n : nat) b :
  untouched b = true ->
  fold_left emit (replicate n false) (0, b)
  = (0, {| runs := runs b; offset := offset b + Z.of_nat n; count := count b |}).
Proof.
  revert b. induction n as [|n IH]; intros b Hu.
  - cbn. rewrite Z.add_0_r. destruct b; reflexivity.
  - cbn [replicate fold_left].
    assert (Hstep : emit (0, b) false = (0, bump b 1)).
    { unfold emit. cbn [fst snd Z.b2z].
      change (slide 0 0) with 0. change (rule 0) with false.
      rewrite insert_eq, Hu. reflexivity. }
    rewrite Hstep. unfold bump. rewrite Hu.
    rewrite IH by exact Hu. cbn. do 2 f_equal. lia.
Qed.

Lemma blank_replicate (l : list bool) :
  Forall (fun c => c = false) l -> l = replicate (length l) false.
Proof.
  induction 1 as [|c l -> _ IH]; [reflexivity|]. cbn. f_equal. exact IH.
Qed.

Lemma next_blank p :
  blank_line p ->
  next p = {| runs := [0];
              offset := offset p - 2 + Z.of_nat (length (decode (runs p)));
              count := 0 |}.
Proof.
  intros Hp. apply blank_replicate in Hp.
  remember (length (decode (runs p))) as n eqn:Hn.
  unfold next. rewrite Hp, emit_blank by reflexivity. reflexivity.
Qed.

(** C7: when a pattern has no filled cell, [read] returns a pattern
    without filled cells, namely the single run 0; the table maps the
    all-blank window 0 to blank. *)
Theorem blank_absorbing (p : Pattern) :
  blank_line p ->
  exists q, read p table = Ok q /\ runs q = [0] /\ blank_line q /\
            table !! 0 = Some false.
Proof.
  intros Hp. exists (next p).
  split; [apply read_table|].
  rewrite (next_blank p Hp). cbn.
  split; [reflexivity|]. split; [constructor | reflexivity].
Qed.

Lemma blank_absorbing_witness :
  exists q, read {| runs := [0]; offset := 4; count := 0 |} table = Ok q /\
            runs q = [0] /\ blank_line q /\ table !! 0 = Some false.
Proof.
  apply (blank_absorbing {| runs := [0]; offset := 4; count := 0 |}).
  constructor.
Defined.

(** ** Decoded lines *)

Lemma decode_from_snoc bit rs c :
  decode_from bit (rs ++ [c])
  = decode_from bit rs
    ++ replicate (Z.to_nat c) (if Nat.even (length rs) then bit else negb bit).
Proof.
  revert bit. induction rs as [|r rs IH]; intros bit.
  - cbn. rewrite app_nil_r. reflexivity.
  - cbn [app decode_from length]. rewrite IH, <- app_assoc.
    rewrite Nat.even_succ, <- Nat.negb_even.
    destruct (Nat.even (length rs)); cbn; rewrite ?negb_involutive; reflexivity.
Qed.

Lemma pending_untouched p : untouched p = true -> pending p = [].
Proof.
  intros H. apply untouched_true in H as [Hr Hc].
  unfold pending. rewrite Hr, Hc. reflexivity.
Qed.

Lemma pending_insert p s :
  0 <= count p -> untouched p && negb s = false ->
  pending (insert p s 1) = pending p ++ [s].
Proof.
  intros Hc Hu. rewrite insert_eq, Hu. unfold pending, decode.
  destruct (Bool.eqb (Nat.even (length (runs p))) s) eqn:He; cbn [runs count].
  - rewrite !decode_from_snoc, <- app_assoc. f_equal.
    rewrite Z2Nat.inj_add by lia. rewrite replicate_add. cbn. f_equal. f_equal.
    destruct (Nat.even (length (runs p))), s; try discriminate; reflexivity.
  - rewrite (decode_from_snoc true (runs p ++ [count p])). f_equal.
    rewrite length_app. cbn [length]. rewrite Nat.add_1_r, Nat.even_succ, <- Nat.negb_even.
    destruct (Nat.even (length (runs p))), s; try discriminate; reflexivity.
Qed.

Lemma line_at_nil off x : line_at off [] x = false.
Proof. unfold line_at. destruct (Z.to_nat (x - off)); apply andb_false_r. Qed.

Lemma line_at_snoc off l s x :
  line_at off (l ++ [s]) x
  = if x =? off + Z.of_nat (length l) then s else line_at off l x.
Proof.
  unfold line_at. destruct (Z.leb_spec off x) as [Hle|Hlt]; cbn.
  - destruct (Z.eqb_spec x (off + Z.of_nat (length l))) as [->|Hne].
    + rewrite app_nth2 by lia.
      replace (Z.to_nat (off + Z.of_nat (length l) - off) - length l)%nat with 0%nat by lia.
      reflexivity.
    + destruct (Nat.lt_ge_cases (Z.to_nat (x - off)) (length l)) as [Hin|Hout].
      * rewrite app_nth1 by exact Hin. reflexivity.
      * rewrite (nth_overflow l) by exact Hout.
        apply nth_overflow. rewrite length_app. cbn. lia.
  - destruct (Z.eqb_spec x (off + Z.of_nat (length l))); [lia | reflexivity].
Qed.

Lemma line_at_blank_tail off l k x :
  line_at off (l ++ replicate k false) x = line_at off l x.
Proof.
  induction k as [|k IH]; [rewrite app_nil_r; reflexivity|].
  rewrite replicate_S_end, app_assoc, line_at_snoc, IH.
  destruct (_ =? _) eqn:Hx; [|reflexivity].
  apply Z.eqb_eq in Hx. unfold line_at.
  destruct (off <=? x); [cbn | reflexivity].
  symmetry. apply nth_overflow. rewrite length_app, length_replicate in Hx. lia.
Qed.

Lemma complete_line p off x :
  line_at off (decode (runs (complete p))) x = line_at off (pending p) x.
Proof.
  unfold complete, pending. rewrite filled_parity.
  destruct (Nat.even (length (runs p))) eqn:He; [reflexivity|].
  unfold decode. rewrite decode_from_snoc, He. cbn [negb].
  rewrite line_at_blank_tail. reflexivity.
Qed.

Lemma finalized_trimmed p :
  finalized p ->
  head (decode (runs p)) <> Some false /\ last (decode (runs p)) <> Some false.
Proof.
  intros [Hz|[Hpos Hodd]].
  - rewrite Hz. split; discriminate.
  - destruct (runs p) as [|r rs _] using rev_ind.
    + destruct Hodd as [k Hk]. cbn in Hk. lia.
    + apply Forall_app in Hpos as [Hrs Hr].
      apply Forall_cons in Hr as [Hr _].
      rewrite length_app, Nat.add_1_r in Hodd.
      apply Nat.Odd_succ, Nat.even_spec in Hodd.
      split.
      * destruct rs as [|r0 rs].
        -- unfold decode. cbn.
           replace (Z.to_nat r) with (S (Z.to_nat (r - 1))) by lia. discriminate.
        -- apply Forall_cons in Hrs as [Hr0 _]. unfold decode. cbn.
           replace (Z.to_nat r0) with (S (Z.to_nat (r0 - 1))) by lia. discriminate.
      * unfold decode. rewrite decode_from_snoc, Hodd.
        replace (Z.to_nat r) with (S (Z.to_nat (r - 1))) by lia.
        rewrite replicate_S_end, app_assoc, last_snoc. discriminate.
Qed.

(** ** Windows and buffers *)

Lemma window_range line x : 0 <= window line x < 32.
Proof.
  unfold window.
  destruct (line (x - 2)), (line (x - 1)), (line x), (line (x + 1)), (line (x + 2));
    cbn; lia.
Qed.

Lemma slide_window line m :
  slide (window line (m - 1)) (Z.b2z (line (m + 2))) = window line m.
Proof.
  unfold window.
  replace (m - 1 - 2) with (m - 3) by lia.
  replace (m - 1 - 1) with (m - 2) by lia.
  replace (m - 1 + 1) with m by lia.
  replace (m - 1 + 2) with (m + 1) by lia.
  destruct (line (m - 3)), (line (m - 2)), (line (m - 1)), (line m),
    (line (m + 1)), (line (m + 2)); reflexivity.
Qed.

Lemma window_zero line x y :
  window line x = 0 -> x - 2 <= y <= x + 2 -> line y = false.
Proof.
  unfold window. intros Hw Hy.
  assert (Hc : y = x - 2 \/ y = x - 1 \/ y = x \/ y = x + 1 \/ y = x + 2) by lia.
  destruct (line (x - 2)) eqn:H1, (line (x - 1)) eqn:H2, (line x) eqn:H3,
    (line (x + 1)) eqn:H4, (line (x + 2)) eqn:H5; cbn in Hw; try lia.
  destruct Hc as [->|[->|[->|[->| ->]]]]; assumption.
Qed.

Lemma window_blank line x :
  (forall y, x - 2 <= y <= x + 2 -> line y = false) -> window line x = 0.
Proof.
  intros H. unfold window. rewrite !H by lia. reflexivity.
Qed.

Lemma silent_facts buffer :
  0 <= buffer < 32 ->
  (silent buffer = true ->
     (rule (slide buffer 0) = false -> silent (slide buffer 0) = true) /\
     (rule (slide buffer 1) = false -> silent (slide buffer 1) = true) /\
     (rule (slide_out buffer) = false -> quiet buffer = true)) /\
  (quiet buffer = true ->
     rule (slide_out buffer) = false /\ quiet (slide_out buffer) = true).
Proof.
  intros H.
  apply (below32 (fun w =>
    (negb (silent w) ||
       ((rule (slide w 0) || silent (slide w 0)) &&
        (rule (slide w 1) || silent (slide w 1)) &&
        (rule (slide_out w) || quiet w)))
    && (negb (quiet w) || (negb (rule (slide_out w)) && quiet (slide_out w)))))
    in H; [|vm_compute; reflexivity].
  apply andb_true_iff in H as [Hs Hq]. split.
  - intros Hsil. rewrite Hsil in Hs. cbn in Hs.
    apply andb_true_iff in Hs as [Hs H3]. apply andb_true_iff in Hs as [H1 H2].
    repeat split; intros Hr; rewrite Hr in *; assumption.
  - intros Hqu. rewrite Hqu in Hq. cbn in Hq.
    apply andb_true_iff in Hq as [H1 H2]. apply negb_true_iff in H1. tauto.
Qed.

(** ** The next line, cell by cell *)

Section Evolution.

Variable line : Z -> bool.

(** Emitting a cell while the builder is synchronized. *)
Lemma insert_synced buffer b m :
  building b -> synced line buffer b m ->
  untouched b && negb (rule (window line m)) = false ->
  synced line (window line m) (insert b (rule (window line m)) 1) (m + 1).
Proof.
  intros Hb (Hlen & Hline & _) Hu.
  pose proof (building_counting b Hb) as [Hc _].
  unfold synced. rewrite insert_offset, pending_insert by assumption.
  split; [rewrite length_app; cbn; lia|]. split.
  - intros x. rewrite line_at_snoc, Hlen, Hline.
    destruct (Z.eqb_spec x m) as [->|Hne].
    + rewrite (proj2 (Z.ltb_lt m (m + 1))) by lia. reflexivity.
    + destruct (Z.ltb_spec x m), (Z.ltb_spec x (m + 1)); try lia; reflexivity.
  - rewrite insert_untouched, Hu by (lia || assumption). discriminate.
Qed.

(** A blank cell emitted before any filled cell leaves the builder
    untouched and every cell up to it blank. *)
Lemma blank_synced b m :
  synced line (window line (m - 1)) b m ->
  untouched b = true -> rule (window line m) = false ->
  forall x, x < m + 1 -> rule (window line x) = false.
Proof.
  intros (_ & Hline & _) Hu Hs x Hx.
  destruct (decide (x = m)) as [->|Hne]; [exact Hs|].
  specialize (Hline x). rewrite (pending_untouched b Hu), line_at_nil in Hline.
  rewrite (proj2 (Z.ltb_lt x m)) in Hline by lia. symmetry. exact Hline.
Qed.

Lemma emit_reading st m :
  reading line st m -> reading line (emit st (line (m + 2))) (m + 1).
Proof.
  destruct st as [buffer b]. unfold reading, emit. cbn [fst snd].
  intros (Hbuf & Hb & Hsync).
  rewrite Hbuf, slide_window. replace (m + 1 - 1) with m by lia.
  split; [reflexivity|].
  split; [apply bump_building, insert_building; [lia | exact Hb]|].
  destruct (untouched b && negb (rule (window line m))) eqn:Hu.
  - (* a blank cell before the first filled one *)
    apply andb_true_iff in Hu as [Hu Hs]. apply negb_true_iff in Hs.
    rewrite Hbuf in Hsync.
    pose proof (blank_synced b m Hsync Hu Hs) as Hblank.
    destruct Hsync as (Hlen & Hline & Hsil).
    rewrite insert_eq, Hu, Hs. cbn [andb negb]. unfold bump. rewrite Hu.
    set (b' := {| runs := runs b; offset := offset b + 1; count := count b |}).
    assert (Hu' : untouched b' = true) by exact Hu.
    unfold synced. rewrite (pending_untouched b' Hu').
    rewrite (pending_untouched b Hu) in Hlen. cbn in Hlen |- *.
    split; [lia|]. split.
    + intros x. rewrite line_at_nil.
      destruct (Z.ltb_spec x (m + 1)); [|reflexivity].
      cbn. symmetry. apply Hblank. lia.
    + intros _. specialize (Hsil Hu).
      pose proof (silent_facts _ (window_range line (m - 1))) as [Hfacts _].
      destruct (Hfacts Hsil) as (H0 & H1 & _).
      rewrite <- (slide_window line m) in Hs |- *.
      destruct (line (m + 2)); [exact (H1 Hs) | exact (H0 Hs)].
  - assert (Hun : untouched (insert b (rule (window line m)) 1) = false)
      by (rewrite insert_untouched by (lia || assumption); exact Hu).
    unfold bump. rewrite Hun.
    apply (insert_synced buffer b m); assumption.
Qed.

Lemma fold_reading bits : forall st m,
  (forall i, (i < length bits)%nat ->
     nth i bits false = line (m + 2 + Z.of_nat i)) ->
  reading line st m ->
  reading line (fold_left emit bits st) (m + Z.of_nat (length bits)).
Proof.
  induction bits as [|c bits IH]; intros st m Hbits Hst.
  - cbn. rewrite Z.add_0_r. exact Hst.
  - cbn [fold_left length].
    replace (m + Z.of_nat (S (length bits)))
      with (m + 1 + Z.of_nat (length bits)) by lia.
    apply IH.
    + intros i Hi. specialize (Hbits (S i) ltac:(cbn; lia)). cbn in Hbits.
      rewrite Hbits. f_equal. lia.
    + specialize (Hbits 0%nat ltac:(cbn; lia)). cbn in Hbits.
      rewrite Z.add_0_r in Hbits. rewrite Hbits. apply emit_reading, Hst.
Qed.

Lemma drain_step buffer b m :
  line (m + 2) = false ->
  draining line buffer b m ->
  draining line (slide_out buffer) (insert b (rule (slide_out buffer)) 1) (m + 1).
Proof.
  intros Hnew (Hbuf & Hb & Hcases).
  assert (Hout : slide_out buffer = window line m).
  { rewrite <- (slide_window line m), Hnew, <- Hbuf.
    apply slide_out_facts. rewrite Hbuf. apply window_range. }
  pose proof (silent_facts _ (window_range line (m - 1))) as [Hsilent Hquiet].
  rewrite <- Hbuf in Hsilent, Hquiet.
  unfold draining. rewrite Hout. replace (m + 1 - 1) with m by lia.
  split; [reflexivity|].
  split; [apply insert_building; [lia | exact Hb]|].
  destruct Hcases as [Hsync|(Hu & Hq & Hblank)].
  - destruct (untouched b && negb (rule (window line m))) eqn:Hu.
    + right. apply andb_true_iff in Hu as [Hu Hs]. apply negb_true_iff in Hs.
      rewrite insert_eq, Hu, Hs. cbn [andb negb].
      assert (Hq : quiet buffer = true).
      { destruct Hsync as (_ & _ & Hsil).
        apply (Hsilent (Hsil Hu)). rewrite Hout. exact Hs. }
      split; [exact Hu|]. split.
      * rewrite <- Hout. apply (Hquiet Hq).
      * rewrite Hbuf in Hsync. exact (blank_synced b m Hsync Hu Hs).
    + left. apply (insert_synced buffer b m); assumption.
  - right. destruct (Hquiet Hq) as [Hs Hq']. rewrite Hout in Hs, Hq'.
    rewrite insert_eq, Hu, Hs. cbn [andb negb].
    split; [exact Hu|]. split; [exact Hq'|].
    intros x Hx. destruct (decide (x = m)) as [->|Hne]; [exact Hs|].
    apply Hblank. lia.
Qed.

Lemma drain_draining fuel : forall buffer b m,
  (forall x, m + 2 <= x -> line x = false) ->
  draining line buffer b m -> (rounds buffer <= fuel)%nat ->
  exists m', m <= m' /\ draining line 0 (drain fuel buffer b) m'.
Proof.
  induction fuel as [|fuel IH]; intros buffer b m Hend Hd Hfuel.
  - assert (Hrange : 0 <= buffer < 32)
      by (destruct Hd as (-> & _); apply window_range).
    destruct (slide_out_facts buffer Hrange) as (_ & _ & _ & _ & Hzero).
    assert (buffer = 0) by (apply Hzero; lia).
    subst buffer. exists m. split; [lia | exact Hd].
  - assert (Hrange : 0 <= buffer < 32)
      by (destruct Hd as (-> & _); apply window_range).
    cbn [drain]. destruct (buffer >? 0) eqn:Hpos.
    + apply Z.gtb_lt in Hpos.
      destruct (slide_out_facts buffer Hrange) as (_ & _ & Hdec & _).
      destruct (IH (slide_out buffer) (insert b (rule (slide_out buffer)) 1) (m + 1))
        as (m' & Hm' & Hfinal).
      * intros x Hx. apply Hend. lia.
      * apply drain_step; [apply Hend; lia | exact Hd].
      * specialize (Hdec Hpos). lia.
      * exists m'. split; [lia | exact Hfinal].
    + assert (buffer = 0)
        by (destruct (Z.gtb_spec buffer 0); [discriminate | lia]).
      subst buffer. exists m. split; [lia | exact Hd].
Qed.

Lemma drained_line b m x :
  (forall y, m + 2 <= y -> line y = false) ->
  draining line 0 b m ->
  line_at (offset b) (decode (runs (complete b))) x = rule (window line x).
Proof.
  intros Hend (Hbuf & Hb & Hcases).
  assert (Hafter : forall y, m <= y -> rule (window line y) = false).
  { intros y Hy. rewrite window_blank; [reflexivity|].
    intros z Hz. destruct (Z.le_gt_cases (m + 2) z) as [Hfar|Hnear].
    - apply Hend, Hfar.
    - apply (window_zero line (m - 1)); [symmetry; exact Hbuf | lia]. }
  rewrite complete_line.
  destruct Hcases as [(_ & Hline & _)|(Hu & _ & Hblank)].
  - rewrite Hline. destruct (Z.ltb_spec x m); [reflexivity|].
    cbn. symmetry. apply Hafter. lia.
  - rewrite (pending_untouched b Hu), line_at_nil. symmetry.
    destruct (Z.lt_ge_cases x m); [apply Hblank | apply Hafter]; lia.
Qed.

End Evolution.

(** ** C1: [read] computes the next generation *)

Lemma cell_nth p (i : nat) :
  (i < length (decode (runs p)))%nat ->
  nth i (decode (runs p)) false = cell p (offset p - 2 + 2 + Z.of_nat i).
Proof.
  intros _. unfold cell, line_at.
  rewrite (proj2 (Z.leb_le _ _)) by lia.
  replace (Z.to_nat (offset p - 2 + 2 + Z.of_nat i - offset p)) with i by lia.
  reflexivity.
Qed.

Lemma cell_before p x : x < offset p -> cell p x = false.
Proof.
  intros H. unfold cell, line_at.
  rewrite (proj2 (Z.leb_gt _ _)) by lia. reflexivity.
Qed.

Lemma cell_after p x :
  offset p + Z.of_nat (length (decode (runs p))) <= x -> cell p x = false.
Proof.
  intros H. unfold cell, line_at.
  rewrite nth_overflow by lia. apply andb_false_r.
Qed.

Lemma reading_start p :
  reading (cell p) (0, new_pattern (offset p - 2)) (offset p - 2).
Proof.
  assert (Hblank : forall x, x < offset p - 2 -> rule (window (cell p) x) = false).
  { intros x Hx. rewrite window_blank; [reflexivity|].
    intros y Hy. apply cell_before. lia. }
  split; [|split; [apply new_pattern_building|]]; cbn [fst snd].
  - symmetry. apply window_blank. intros y Hy. apply cell_before. lia.
  - unfold synced.
    rewrite (pending_untouched (new_pattern (offset p - 2)) eq_refl).
    cbn [new_pattern offset length].
    split; [lia|]. split; [|reflexivity].
    intros x. rewrite line_at_nil.
    destruct (Z.ltb_spec x (offset p - 2)); [|reflexivity].
    cbn. symmetry. apply Hblank. assumption.
Qed.

Lemma next_cell p x : cell (next p) x = rule (window (cell p) x).
Proof.
  pose proof (fold_reading (cell p) (decode (runs p)) _ _
                (cell_nth p) (reading_start p)) as Hread.
  unfold cell at 1. unfold next. rewrite complete_offset.
  destruct (fold_left emit (decode (runs p)) (0, new_pattern (offset p - 2)))
    as [buffer b].
  destruct Hread as (Hbuf & Hb & Hsync). cbn [fst snd] in *.
  set (m := offset p - 2 + Z.of_nat (length (decode (runs p)))) in *.
  assert (Hend : forall y, m + 2 <= y -> cell p y = false)
    by (intros y Hy; apply cell_after; lia).
  destruct (drain_draining (cell p) 5 buffer b m Hend) as (m' & Hm' & Hd).
  - split; [exact Hbuf|]. split; [exact Hb | left; exact Hsync].
  - apply slide_out_facts. rewrite Hbuf. apply window_range.
  - apply (drained_line (cell p) (drain 5 buffer b) m'); [|exact Hd].
    intros y Hy. apply Hend. lia.
Qed.

(** C1: on the computed table, [read] returns the next generation of the
    line its argument stands for.  The returned pattern is finalized, so
    its decoded cells, if there are any, begin and end with a filled
    cell (blanks in front went into the offset, blanks behind were
    dropped); and at every position the cell of the returned pattern,
    decoded at its offset, is the table's entry for the five-cell window
    of the argument centered there, the cells outside the argument's
    runs being blank.  This holds for every pattern, finalized or not. *)
Theorem read_next_generation (p : Pattern) :
  exists q,
    read p table = Ok q /\
    finalized q /\
    (decode (runs q) = [] \/
     (head (decode (runs q)) = Some true /\ last (decode (runs q)) = Some true)) /\
    forall x, table !! window (cell p) x = Some (cell q x).
Proof.
  exists (next p).
  split; [apply read_table|].
  split; [apply next_finalized|].
  split.
  - destruct (finalized_trimmed _ (next_finalized p)) as [Hhd Hlast].
    destruct (decode (runs (next p))) as [|c l] eqn:Hd; [left; reflexivity|].
    right. split.
    + destruct c; [reflexivity | exfalso; apply Hhd; reflexivity].
    + destruct (last (c :: l)) as [[]|] eqn:Hl.
      * reflexivity.
      * exfalso. apply Hlast. reflexivity.
      * apply last_None in Hl. discriminate.
  - intros x. rewrite table_rule by apply window_range.
    rewrite next_cell. reflexivity.
Qed.

(** * Further properties of the code *)

(** ** The builder is a run-length encoder *)

Lemma pending_insert_steps p s k :
  0 <= count p -> 0 <= k -> untouched p && negb s = false ->
  pending (insert p s k) = pending p ++ replicate (Z.to_nat k) s.
Proof.
  intros Hc Hk Hu. rewrite insert_eq, Hu. unfold pending, decode.
  destruct (Bool.eqb (Nat.even (length (runs p))) s) eqn:He; cbn [runs count].
  - rewrite !decode_from_snoc, <- app_assoc. f_equal.
    rewrite Z2Nat.inj_add by lia. rewrite replicate_add. f_equal. f_equal.
    destruct (Nat.even (length (runs p))), s; try discriminate; reflexivity.
  - rewrite (decode_from_snoc true (runs p ++ [count p])). f_equal. f_equal.
    rewrite length_app. cbn [length]. rewrite Nat.add_1_r, Nat.even_succ, <- Nat.negb_even.
    destruct (Nat.even (length (runs p))), s; try discriminate; reflexivity.
Qed.

Lemma rev_replicate {A : Type} (k : nat) (x : A) :
  rev (replicate k x) = replicate k x.
Proof.
  induction k as [|k IH]; [reflexivity|].
  cbn [replicate rev]. rewrite IH. symmetry. apply replicate_S_end.
Qed.

Lemma strip_blanks k cells : strip (replicate k false ++ cells) = strip cells.
Proof. induction k as [|k IH]; [reflexivity | exact IH]. Qed.

Lemma strip_filled k cells :
  (0 < k)%nat -> strip (replicate k true ++ cells) = replicate k true ++ cells.
Proof. destruct k; [lia | reflexivity]. Qed.

Lemma strip_last cells :
  last cells <> Some false -> rev (strip (rev cells)) = cells.
Proof.
  destruct cells as [|c cells _] using rev_ind; [reflexivity|].
  rewrite last_snoc, rev_unit. intros Hc.
  destruct c; [|congruence]. cbn. rewrite rev_involutive. reflexivity.
Qed.

Lemma pending_inserts ops : forall p,
  Forall (fun op => 0 < snd op) ops -> building p ->
  pending (inserts ops p)
  = if untouched p then strip (expand ops) else pending p ++ expand ops.
Proof.
  induction ops as [|[s k] ops IH]; intros p Hops Hp.
  - cbn. destruct (untouched p) eqn:Hu; [apply pending_untouched, Hu|].
    rewrite app_nil_r. reflexivity.
  - apply Forall_cons in Hops as [Hk Hops]. cbn in Hk.
    pose proof (building_counting p Hp) as [Hc _].
    pose proof (insert_building p s k Hk Hp) as Hp'.
    change (inserts ((s, k) :: ops) p) with (inserts ops (insert p s k)).
    rewrite (IH _ Hops Hp'), insert_untouched by assumption.
    unfold expand. cbn [map concat fst snd]. fold (expand ops).
    destruct (untouched p && negb s) eqn:Hu.
    + apply andb_true_iff in Hu as [Hu Hs]. apply negb_true_iff in Hs. subst s.
      rewrite Hu, strip_blanks. reflexivity.
    + rewrite pending_insert_steps by (assumption || lia).
      rewrite <- app_assoc.
      destruct (untouched p) eqn:Hun; [|reflexivity].
      cbn in Hu. apply negb_false_iff in Hu. subst s.
      rewrite (pending_untouched p Hun), strip_filled by lia. reflexivity.
Qed.

Lemma complete_trailing p :
  building p -> decode (runs (complete p)) = rev (strip (rev (pending p))).
Proof.
  intros Hp. pose proof (complete_finalized p Hp) as Hfin.
  apply finalized_trimmed in Hfin as [_ Hlast].
  unfold complete in *. rewrite filled_parity in *. unfold pending.
  destruct (Nat.even (length (runs p))) eqn:He; cbn [runs] in *.
  - symmetry. apply strip_last, Hlast.
  - unfold decode at 2. rewrite decode_from_snoc, He. cbn [negb].
    rewrite rev_app_distr, rev_replicate, strip_blanks.
    symmetry. apply strip_last, Hlast.
Qed.

Lemma decode_completed ops off :
  Forall (fun op => 0 < snd op) ops ->
  decode (runs (complete (inserts ops (new_pattern off)))) = trim (expand ops).
Proof.
  intros Hops.
  rewrite complete_trailing
    by (apply inserts_building; [exact Hops | apply new_pattern_building]).
  rewrite pending_inserts by (exact Hops || apply new_pattern_building).
  reflexivity.
Qed.

(** X1: [insert] and [complete] encode what was written.  After calls
    of [insert] with positive steps, the runs [complete] returns decode
    to the written cells without the blanks at either end. *)
Theorem builder_round_trip (ops : list (bool * Z)) (off : Z) :
  Forall (fun op => 0 < snd op) ops ->
  decode (runs (complete (inserts ops (new_pattern off)))) = trim (expand ops).
Proof. apply decode_completed. Qed.

Lemma builder_round_trip_witness :
  decode (runs (complete (inserts [(false, 2); (true, 3); (false, 1); (true, 1); (false, 4)]
                            (new_pattern 0))))
  = [true; true; true; false; true].
Proof.
  rewrite (builder_round_trip
             [(false, 2); (true, 3); (false, 1); (true, 1); (false, 4)] 0).
  - reflexivity.
  - repeat (apply Forall_cons; split; [cbn; lia|]). apply Forall_nil_2.
Defined.

Lemma expand_cell_ops input : expand (cell_ops input) = cells_of input.
Proof.
  unfold expand, cell_ops, cells_of.
  induction (chars input) as [|c cs IH]; [reflexivity|].
  cbn. f_equal. exact IH.
Qed.

(** X2: [toPattern] followed by decoding is trimming.  The runs of a
    parsed text decode to the cells of the text ('#' filled, '.' blank)
    without the blanks at either end. *)
Theorem toPattern_round_trip (input : string) (p : Pattern) :
  toPattern input = Ok p ->
  decode (runs p) = trim (cells_of input).
Proof.
  intros Hp. apply toPattern_inv in Hp. subst p.
  rewrite decode_completed by apply cell_ops_positive.
  rewrite expand_cell_ops. reflexivity.
Qed.

Lemma toPattern_round_trip_witness :
  decode [1; 2; 2] = trim (cells_of "..#..##.").
Proof.
  apply (toPattern_round_trip "..#..##." {| runs := [1; 2; 2]; offset := 0; count := 1 |}).
  reflexivity.
Defined.

(** ** Finalized patterns are canonical *)

Lemma decode_from_head c rs :
  Forall (fun r => 0 < r) rs -> head (decode_from c rs) <> Some (negb c).
Proof.
  intros [|r rest Hr _]; [discriminate|].
  cbn. replace (Z.to_nat r) with (S (Z.to_nat (r - 1))) by lia.
  cbn. destruct c; discriminate.
Qed.

Lemma replicate_app_inj (b : bool) n n' cells cells' :
  replicate n b ++ cells = replicate n' b ++ cells' ->
  head cells <> Some b -> head cells' <> Some b ->
  n = n' /\ cells = cells'.
Proof.
  revert n'. induction n as [|n IH]; intros [|n'] Heq Hc Hc'; cbn in Heq.
  - auto.
  - subst cells. exfalso. apply Hc. reflexivity.
  - subst cells'. exfalso. apply Hc'. reflexivity.
  - injection Heq as Heq. destruct (IH n' Heq Hc Hc') as [-> ->]. auto.
Qed.

Lemma decode_from_inj c rs : forall rs',
  Forall (fun r => 0 < r) rs -> Forall (fun r => 0 < r) rs' ->
  decode_from c rs = decode_from c rs' -> rs = rs'.
Proof.
  revert c. induction rs as [|r rest IH]; intros c [|r' rest'] Hrs Hrs' Heq.
  - reflexivity.
  - exfalso. apply Forall_cons in Hrs' as [Hr' _]. cbn in Heq.
    replace (Z.to_nat r') with (S (Z.to_nat (r' - 1))) in Heq by lia. discriminate.
  - exfalso. apply Forall_cons in Hrs as [Hr _]. cbn in Heq.
    replace (Z.to_nat r) with (S (Z.to_nat (r - 1))) in Heq by lia. discriminate.
  - apply Forall_cons in Hrs as [Hr Hrest].
    apply Forall_cons in Hrs' as [Hr' Hrest'].
    cbn in Heq. apply replicate_app_inj in Heq as [Hn Hd].
    + f_equal; [lia | exact (IH _ _ Hrest Hrest' Hd)].
    + pose proof (decode_from_head (negb c) rest Hrest) as H.
      rewrite negb_involutive in H. exact H.
    + pose proof (decode_from_head (negb c) rest' Hrest') as H.
      rewrite negb_involutive in H. exact H.
Qed.

Lemma line_at_true off cells x :
  line_at off cells x = true -> off <= x < off + Z.of_nat (length cells).
Proof.
  unfold line_at. intros H. apply andb_true_iff in H as [Hle Hnth].
  apply Z.leb_le in Hle. split; [exact Hle|].
  destruct (Z.lt_ge_cases x (off + Z.of_nat (length cells))) as [|Hout]; [assumption|].
  rewrite nth_overflow in Hnth by lia. discriminate.
Qed.

Lemma line_at_nth off cells (i : nat) :
  line_at off cells (off + Z.of_nat i) = nth i cells false.
Proof.
  unfold line_at. rewrite (proj2 (Z.leb_le _ _)) by lia.
  replace (Z.to_nat (off + Z.of_nat i - off)) with i by lia. reflexivity.
Qed.

Lemma line_at_head off cells :
  head cells = Some true -> line_at off cells off = true.
Proof.
  intros H. pose proof (line_at_nth off cells 0) as H0.
  change (Z.of_nat 0) with 0 in H0. rewrite Z.add_0_r in H0. rewrite H0.
  destruct cells; [discriminate|]. cbn in *. congruence.
Qed.

Lemma line_at_last off cells :
  last cells = Some true ->
  line_at off cells (off + Z.of_nat (length cells) - 1) = true.
Proof.
  destruct cells as [|c cells _] using rev_ind; [discriminate|].
  rewrite last_snoc, length_app. cbn [length]. intros [= ->].
  replace (off + Z.of_nat (length cells + 1) - 1)
    with (off + Z.of_nat (length cells)) by lia.
  rewrite line_at_nth, app_nth2 by lia.
  rewrite Nat.sub_diag. reflexivity.
Qed.

(** Two lines written from a filled cell to a filled cell are the same
    line only if they start at the same place with the same cells. *)
Lemma line_at_ext off cells off' cells' :
  head cells = Some true -> last cells = Some true ->
  head cells' = Some true -> last cells' = Some true ->
  (forall x, line_at off cells x = line_at off' cells' x) ->
  off = off' /\ cells = cells'.
Proof.
  intros Hh Hl Hh' Hl' Hext.
  assert (Hoff : off = off').
  { pose proof (line_at_head off cells Hh) as H1. rewrite Hext in H1.
    pose proof (line_at_head off' cells' Hh') as H2. rewrite <- Hext in H2.
    apply line_at_true in H1, H2. lia. }
  subst off'. split; [reflexivity|].
  assert (Hlen : length cells = length cells').
  { pose proof (line_at_last off cells Hl) as H1. rewrite Hext in H1.
    pose proof (line_at_last off cells' Hl') as H2. rewrite <- Hext in H2.
    apply line_at_true in H1, H2. lia. }
  apply (nth_ext _ _ false false Hlen).
  intros i _. rewrite <- !(line_at_nth off). apply Hext.
Qed.

Lemma finalized_cases p :
  finalized p ->
  (runs p = [0] /\ decode (runs p) = []) \/
  (Forall (fun r => 0 < r) (runs p) /\
   head (decode (runs p)) = Some true /\ last (decode (runs p)) = Some true).
Proof.
  intros Hfin. pose proof (finalized_trimmed p Hfin) as [Hh Hl].
  destruct Hfin as [Hz|[Hpos Hodd]]; [left; rewrite Hz; split; reflexivity|].
  right. split; [exact Hpos|].
  destruct (runs p) as [|r rs]; [destruct Hodd as [k Hk]; cbn in Hk; lia|].
  pose proof Hpos as Hr. apply Forall_cons in Hr as [Hr _].
  assert (Hne : decode (r :: rs) <> []).
  { unfold decode. cbn. replace (Z.to_nat r) with (S (Z.to_nat (r - 1))) by lia.
    discriminate. }
  destruct (decode (r :: rs)) as [|c l] eqn:Hd; [congruence|].
  split.
  - destruct c; [reflexivity | exfalso; apply Hh; reflexivity].
  - destruct (last (c :: l)) as [[]|] eqn:Hlast.
    + reflexivity.
    + exfalso. apply Hl. reflexivity.
    + apply last_None in Hlast. discriminate.
Qed.

Lemma same_line_same_runs p q :
  finalized p -> finalized q ->
  (forall x, cell p x = cell q x) ->
  runs p = runs q /\ (decode (runs p) <> [] -> offset p = offset q).
Proof.
  intros Hp Hq Hext. unfold cell in Hext.
  destruct (finalized_cases p Hp) as [[Hrp Hdp]|(Hpos & Hh & Hl)];
    destruct (finalized_cases q Hq) as [[Hrq Hdq]|(Hpos' & Hh' & Hl')].
  - split; [congruence | intros H; contradiction].
  - exfalso. pose proof (line_at_head (offset q) _ Hh') as H.
    rewrite <- Hext, Hdp, line_at_nil in H. discriminate.
  - exfalso. pose proof (line_at_head (offset p) _ Hh) as H.
    rewrite Hext, Hdq, line_at_nil in H. discriminate.
  - destruct (line_at_ext _ _ _ _ Hh Hl Hh' Hl' Hext) as [Hoff Hcells].
    split; [|intros _; exact Hoff].
    exact (decode_from_inj true _ _ Hpos Hpos' Hcells).
Qed.

(** X3: the run-length form is canonical.  Two finalized patterns that
    stand for the same line have the same runs, and the same offset too
    unless the line is blank; so the tuples [solve] compares are equal
    exactly when the lines are. *)
Theorem finalized_canonical (p q : Pattern) :
  finalized p -> finalized q ->
  (forall x, cell p x = cell q x) ->
  runs p = runs q /\ (decode (runs p) <> [] -> offset p = offset q).
Proof. apply same_line_same_runs. Qed.

Lemma finalized_canonical_witness :
  runs {| runs := [2; 1; 3]; offset := 4; count := 0 |}
  = runs {| runs := [2; 1; 3]; offset := 4; count := 7 |} /\
  (decode [2; 1; 3] <> [] -> 4 = 4).
Proof.
  apply (finalized_canonical {| runs := [2; 1; 3]; offset := 4; count := 0 |}
                             {| runs := [2; 1; 3]; offset := 4; count := 7 |}).
  - right. split; [repeat constructor | exists 1%nat; reflexivity].
  - right. split; [repeat constructor | exists 1%nat; reflexivity].
  - intros x. reflexivity.
Defined.

(** ** C9: the accumulator [count] after [complete] *)

Lemma leading_blanks_blank n cells :
  leading_blanks (replicate n false ++ cells) = (n + leading_blanks cells)%nat.
Proof. induction n as [|n IH]; [reflexivity|]. cbn. rewrite IH. reflexivity. Qed.

Lemma leading_blanks_filled cells cells' :
  In true cells -> leading_blanks (cells ++ cells') = leading_blanks cells.
Proof.
  induction cells as [|[] cells IH]; intros Hin; [destruct Hin | reflexivity|].
  cbn. f_equal. apply IH. destruct Hin as [Hin|Hin]; [discriminate | exact Hin].
Qed.

Lemma strip_split cells :
  cells = replicate (leading_blanks cells) false ++ strip cells.
Proof.
  induction cells as [|[] cells IH]; [reflexivity | reflexivity|].
  cbn. f_equal. exact IH.
Qed.

Lemma strip_filled_in cells : strip cells <> [] -> In true (strip cells).
Proof.
  induction cells as [|[] cells IH]; intros H; [contradiction | left; reflexivity|].
  apply IH, H.
Qed.

Lemma strip_exists cells : existsb id cells = negb (bool_decide (strip cells = [])).
Proof.
  induction cells as [|[] cells IH]; [reflexivity | reflexivity | exact IH].
Qed.

Lemma trailing_blanks_strip cells :
  strip cells <> [] -> trailing_blanks cells = trailing_blanks (strip cells).
Proof.
  intros Hne. unfold trailing_blanks.
  rewrite (strip_split cells) at 1.
  rewrite rev_app_distr, rev_replicate.
  apply leading_blanks_filled. apply in_rev. rewrite rev_involutive.
  apply strip_filled_in, Hne.
Qed.

Lemma trailing_blanks_tail cells n :
  last cells = Some true ->
  trailing_blanks (cells ++ replicate n false) = n.
Proof.
  intros Hl. unfold trailing_blanks.
  rewrite rev_app_distr, rev_replicate, leading_blanks_blank.
  destruct cells as [|c cells _] using rev_ind; [discriminate|].
  rewrite last_snoc in Hl. injection Hl as ->.
  rewrite rev_unit. cbn. lia.
Qed.

Lemma last_filled_run cells n :
  (0 < n)%nat -> last (cells ++ replicate n true) = Some true.
Proof.
  intros Hn. destruct n as [|n]; [lia|].
  rewrite replicate_S_end, app_assoc. apply last_snoc.
Qed.

(** The accumulator of a builder, read off the cells written. *)
Lemma count_trailing ops off :
  Forall (fun op => 0 < snd op) ops ->
  let b := inserts ops (new_pattern off) in
  (Nat.even (length (runs b)) = false -> complete b = b /\ 0 < count b) /\
  count (complete b)
  = (if existsb id (expand ops) then Z.of_nat (trailing_blanks (expand ops)) else 0).
Proof.
  intros Hops b.
  assert (Hb : building b)
    by (apply inserts_building; [exact Hops | apply new_pattern_building]).
  assert (Hpend : pending b = strip (expand ops))
    by exact (pending_inserts ops (new_pattern off) Hops (new_pattern_building off)).
  assert (Hpos : Nat.even (length (runs b)) = false -> 0 < count b).
  { intros He. destruct Hb as [_ [Hc|Hu]]; [exact Hc|].
    apply untouched_true in Hu as [Hnil _]. rewrite Hnil in He. discriminate. }
  split.
  { intros He. split; [|apply Hpos, He].
    unfold complete. rewrite filled_parity, He. reflexivity. }
  rewrite complete_count, strip_exists, <- Hpend.
  unfold pending, decode. rewrite decode_from_snoc.
  destruct (Nat.even (length (runs b))) eqn:He; cbn [negb].
  - (* the hanging run, if any, is a filled one *)
    destruct Hb as [_ [Hc|Hu]].
    + assert (Hlast : last (pending b) = Some true).
      { unfold pending, decode. rewrite decode_from_snoc, He.
        apply last_filled_run. lia. }
      unfold pending, decode in Hlast. rewrite decode_from_snoc, He in Hlast.
      case_bool_decide as Hnil; [reflexivity|]. cbn [negb].
      pose proof (trailing_blanks_tail _ 0 Hlast) as Ht.
      cbn [replicate] in Ht. rewrite app_nil_r in Ht.
      assert (Hne : strip (expand ops) <> []).
      { rewrite <- Hpend. unfold pending, decode.
        rewrite decode_from_snoc, He. exact Hnil. }
      rewrite (trailing_blanks_strip _ Hne), <- Hpend.
      unfold pending, decode. rewrite decode_from_snoc, He, Ht. reflexivity.
    + apply untouched_true in Hu as [Hnil Hc]. rewrite Hnil, Hc. reflexivity.
  - (* the construction ends inside a blank run *)
    specialize (Hpos eq_refl).
    assert (Hfin : finalized b).
    { pose proof (complete_finalized b Hb) as H.
      unfold complete in H. rewrite filled_parity, He in H. exact H. }
    destruct (finalized_cases b Hfin) as [[Hz _]|(_ & _ & Hlast)].
    { exfalso. destruct Hb as [Hr _]. rewrite Hz in Hr.
      apply Forall_cons in Hr as [Hr _]. lia. }
    unfold decode in Hlast.
    assert (Hne : strip (expand ops) <> []).
    { rewrite <- Hpend. unfold pending, decode. rewrite decode_from_snoc, He.
      intros H. apply app_eq_nil in H as [H _]. rewrite H in Hlast. discriminate. }
    rewrite bool_decide_eq_false_2; cbn [negb].
    + rewrite (trailing_blanks_strip _ Hne), <- Hpend.
      unfold pending, decode. rewrite decode_from_snoc, He. cbn [negb].
      rewrite (trailing_blanks_tail _ _ Hlast). lia.
    + intros H. apply Hne. rewrite <- Hpend. unfold pending, decode.
      rewrite decode_from_snoc, He. exact H.
Qed.

(** C9, as stated, fails: a construction that ends inside a blank run
    leaves its accumulator on the returned pattern. *)
Lemma complete_keeps_count :
  count (complete (inserts [(true, 1); (false, 1)] (new_pattern 0))) <> 0.
Proof. vm_compute. discriminate. Qed.

(** C9 (amended): after [insert] calls with positive steps, [complete]
    zeroes [count] exactly when it flushes the hanging filled run, that
    is when the number of closed runs is even.  When the number of
    closed runs is odd, the construction has ended inside a blank run:
    [complete] then returns the builder unchanged, and the [count] it
    leaves is positive.  In every case [count] on the returned pattern
    is the number of blank cells written after the last filled cell
    (0 when no filled cell was written), and these cells are not
    recorded in [runs], which decode to the written cells without the
    blanks at either end. *)
Theorem complete_count_zero_iff (ops : list (bool * Z)) (off : Z) :
  Forall (fun op => 0 < snd op) ops ->
  let b := inserts ops (new_pattern off) in
  count (complete b) = (if Nat.even (length (runs b)) then 0 else count b) /\
  (count (complete b) = 0 <-> Nat.Even (length (runs b))) /\
  (Nat.Odd (length (runs b)) -> complete b = b /\ 0 < count b) /\
  count (complete b)
  = (if existsb id (expand ops)
     then Z.of_nat (trailing_blanks (expand ops)) else 0) /\
  decode (runs (complete b)) = trim (expand ops).
Proof.
  intros Hops b.
  destruct (count_trailing ops off Hops) as [Hodd Hcells]. fold b in Hodd, Hcells.
  split; [apply complete_count|].
  split.
  { rewrite complete_count, <- Nat.even_spec.
    destruct (Nat.even (length (runs b))) eqn:He; [tauto|].
    split; [|discriminate].
    intros Hc. destruct (Hodd eq_refl) as [_ Hpos]. lia. }
  split.
  { intros Ho. apply Hodd.
    apply Nat.odd_spec in Ho. rewrite <- Nat.negb_odd, Ho. reflexivity. }
  split; [exact Hcells | apply decode_completed, Hops].
Qed.

Lemma complete_count_zero_iff_witness :
  count (complete (inserts [(true, 2); (false, 3)] (new_pattern 0))) = 3 /\
  count (complete (inserts [(true, 2); (false, 3); (true, 1)] (new_pattern 0))) = 0 /\
  decode (runs (complete (inserts [(true, 2); (false, 3)] (new_pattern 0))))
  = [true; true].
Proof.
  split; [|split].
  - destruct (complete_count_zero_iff [(true, 2); (false, 3)] 0
                ltac:(repeat constructor)) as (_ & _ & _ & Hcells & _).
    rewrite Hcells. reflexivity.
  - apply (proj1 (proj2 (complete_count_zero_iff
                           [(true, 2); (false, 3); (true, 1)] 0
                           ltac:(repeat constructor)))).
    exists 1%nat. reflexivity.
  - destruct (complete_count_zero_iff [(true, 2); (false, 3)] 0
                ltac:(repeat constructor)) as (_ & _ & _ & _ & Hdecode).
    rewrite Hdecode. reflexivity.
Defined.

(** ** [read] does not depend on where the line lies *)

Lemma untouched_shift k p : untouched (shift k p) = untouched p.
Proof. reflexivity. Qed.

Lemma insert_shift k p s steps :
  insert (shift k p) s steps = shift k (insert p s steps).
Proof.
  unfold insert. rewrite untouched_shift. cbn [runs shift count offset].
  destruct (untouched p && negb s); [reflexivity|].
  destruct (_ || _); reflexivity.
Qed.

Lemma bump_shift k p steps : bump (shift k p) steps = shift k (bump p steps).
Proof.
  unfold bump. rewrite untouched_shift.
  destruct (untouched p); [|reflexivity].
  unfold shift. cbn. f_equal. lia.
Qed.

Lemma complete_shift k p : complete (shift k p) = shift k (complete p).
Proof.
  unfold complete. cbn [runs shift]. destruct (_ =? _); reflexivity.
Qed.

Lemma emit_shift k bits : forall buffer p,
  fold_left emit bits (buffer, shift k p)
  = (fst (fold_left emit bits (buffer, p)),
     shift k (snd (fold_left emit bits (buffer, p)))).
Proof.
  induction bits as [|c bits IH]; intros buffer p; [reflexivity|].
  cbn [fold_left]. unfold emit at 2 4 6. cbn [fst snd].
  rewrite <- IH. unfold emit at 2. cbn [fst snd].
  rewrite insert_shift, bump_shift. reflexivity.
Qed.

Lemma drain_shift k fuel : forall buffer p,
  drain fuel buffer (shift k p) = shift k (drain fuel buffer p).
Proof.
  induction fuel as [|fuel IH]; intros buffer p; cbn;
    destruct (buffer >? 0); try reflexivity.
  rewrite insert_shift. apply IH.
Qed.

Lemma next_shift k p : next (shift k p) = shift k (next p).
Proof.
  unfold next. cbn [runs offset shift].
  replace (new_pattern (offset p + k - 2))
    with (shift k (new_pattern (offset p - 2)))
    by (unfold shift, new_pattern; cbn; f_equal; lia).
  rewrite emit_shift. cbn [fst snd].
  rewrite drain_shift, complete_shift. reflexivity.
Qed.

Lemma next_ext p p' :
  runs p' = runs p -> offset p' = offset p -> next p' = next p.
Proof. intros Hr Ho. unfold next. rewrite Hr, Ho. reflexivity. Qed.

(** X4: [read] commutes with translation and ignores [count].  On the
    computed table, a pattern with the same runs, lying [k] cells to the
    right, evolves into the same pattern lying [k] cells to the right. *)
Theorem read_translation (p p' q : Pattern) (k : Z) :
  runs p' = runs p -> offset p' = offset p + k ->
  read p table = Ok q ->
  read p' table = Ok (shift k q).
Proof.
  intros Hr Ho Hq. rewrite read_table in *. injection Hq as <-.
  f_equal. rewrite <- next_shift. apply next_ext; [exact Hr | exact Ho].
Qed.

Lemma read_translation_witness :
  read {| runs := [3; 1; 1]; offset := 10; count := 4 |} table
  = Ok {| runs := [3; 1; 1]; offset := 9; count := 4 |}.
Proof.
  apply (read_translation {| runs := [3; 1; 1]; offset := 0; count := 0 |} _
           {| runs := [3; 1; 1]; offset := -1; count := 4 |} 10).
  - reflexivity.
  - reflexivity.
  - vm_compute. reflexivity.
Defined.

(** ** A generation grows by one cell at most on either side *)

Lemma rule_lonely_right line x :
  (forall y, x - 2 <= y <= x + 1 -> line y = false) ->
  rule (window line x) = false.
Proof.
  intros H. unfold window.
  rewrite (H (x - 2)), (H (x - 1)), (H x), (H (x + 1)) by lia.
  destruct (line (x + 2)); reflexivity.
Qed.

Lemma rule_lonely_left line x :
  (forall y, x - 1 <= y <= x + 2 -> line y = false) ->
  rule (window line x) = false.
Proof.
  intros H. unfold window.
  rewrite (H (x - 1)), (H x), (H (x + 1)), (H (x + 2)) by lia.
  destruct (line (x - 2)); reflexivity.
Qed.

(** X5: the line spreads by one cell per generation at most.  When the
    pattern [read] returns has a filled cell, its first cell lies at
    most one position before the first cell of the argument and its last
    cell at most one position after the last. *)
Theorem read_growth (p q : Pattern) :
  read p table = Ok q -> decode (runs q) <> [] ->
  offset p - 1 <= offset q /\
  offset q + Z.of_nat (length (decode (runs q)))
    <= offset p + Z.of_nat (length (decode (runs p))) + 1.
Proof.
  intros Hq Hne. rewrite read_table in Hq. injection Hq as <-.
  destruct (finalized_cases _ (next_finalized p)) as [[_ Hd]|(_ & Hh & Hl)];
    [contradiction|].
  split.
  - pose proof (line_at_head (offset (next p)) _ Hh) as Hfirst.
    fold (cell (next p)) in Hfirst. rewrite next_cell in Hfirst.
    destruct (Z.le_gt_cases (offset p - 1) (offset (next p))) as [|Hfar]; [assumption|].
    rewrite rule_lonely_right in Hfirst; [discriminate|].
    intros y Hy. apply cell_before. lia.
  - pose proof (line_at_last (offset (next p)) _ Hl) as Hlast.
    fold (cell (next p)) in Hlast. rewrite next_cell in Hlast.
    set (e := offset p + Z.of_nat (length (decode (runs p)))) in *.
    destruct (Z.le_gt_cases (offset (next p) + Z.of_nat (length (decode (runs (next p)))))
                (e + 1)) as [|Hfar]; [assumption|].
    rewrite rule_lonely_left in Hlast; [discriminate|].
    intros y Hy. apply cell_after. fold e. lia.
Qed.

Lemma read_growth_witness :
  0 - 1 <= -1 /\ -1 + Z.of_nat (length (decode [1; 2; 1])) <= 0 + Z.of_nat (length (decode [2])) + 1.
Proof.
  apply (read_growth {| runs := [2]; offset := 0; count := 0 |}
                     {| runs := [1; 2; 1]; offset := -1; count := 2 |}).
  - vm_compute. reflexivity.
  - discriminate.
Defined.

(** ** What the labels of [solve] say about the evolution *)

Lemma lines_after_tuple p i t :
  Tuple t ∈ lines_after p i <->
  exists j, (1 <= j <= i)%nat /\
            t = offset (generation p j) :: runs (generation p j).
Proof.
  unfold lines_after. rewrite elem_of_union, elem_of_list_to_set, list_elem_of_In, in_map_iff.
  split.
  - intros [H|(j & Hj & Hin)]; [destruct (set_of_no_tuple _ _ H)|].
    apply in_seq in Hin. injection Hj as <-. exists j. split; [lia | reflexivity].
  - intros (j & Hj & ->). right. exists j. split; [reflexivity|].
    apply in_seq. lia.
Qed.

Lemma patterns_after_tuple p i t :
  Tuple t ∈ patterns_after p i <->
  exists j, (1 <= j <= i)%nat /\ t = 0 :: runs (generation p j).
Proof.
  unfold patterns_after. rewrite elem_of_union, elem_of_list_to_set, list_elem_of_In, in_map_iff.
  split.
  - intros [H|(j & Hj & Hin)]; [destruct (set_of_no_tuple _ _ H)|].
    apply in_seq in Hin. injection Hj as <-. exists j. split; [lia | reflexivity].
  - intros (j & Hj & ->). right. exists j. split; [reflexivity|].
    apply in_seq. lia.
Qed.

Lemma generation_add p a k :
  generation p (a + k) = Nat.iter k next (generation p a).
Proof.
  unfold generation. rewrite Nat.add_comm. apply Nat.iter_add.
Qed.

Lemma iter_next_shift d a b : forall k,
  runs b = runs a -> offset b = offset a + d ->
  runs (Nat.iter k next b) = runs (Nat.iter k next a) /\
  offset (Nat.iter k next b) = offset (Nat.iter k next a) + d.
Proof.
  induction k as [|k IH]; intros Hr Ho; [split; assumption|].
  destruct (IH Hr Ho) as [Hr' Ho']. rewrite !Nat.iter_succ.
  rewrite (next_ext (shift d (Nat.iter k next a)) (Nat.iter k next b) Hr' Ho').
  rewrite next_shift. split; reflexivity.
Qed.

Lemma verdict_blinking p c :
  verdict_at p c = Some "blinking"%string ->
  exists j, (1 <= j < c)%nat /\
    runs (generation p j) = runs (generation p c) /\
    offset (generation p j) = offset (generation p c).
Proof.
  unfold verdict_at. destruct (first_item _) as [r0|]; [|discriminate].
  destruct (r0 =? 0); [discriminate|].
  destruct (decide _) as [Hin|_];
    [|destruct (decide _); discriminate].
  intros _. apply lines_after_tuple in Hin as (j & Hj & Heq).
  injection Heq as Ho Hr. exists j. split; [lia | split; congruence].
Qed.

Lemma verdict_gliding p c :
  verdict_at p c = Some "gliding"%string ->
  exists j, (1 <= j < c)%nat /\
    runs (generation p j) = runs (generation p c) /\
    offset (generation p j) <> offset (generation p c).
Proof.
  unfold verdict_at. destruct (first_item _) as [r0|]; [|discriminate].
  destruct (r0 =? 0); [discriminate|].
  destruct (decide _) as [|Hout]; [discriminate|].
  destruct (decide _) as [Hin|]; [|discriminate].
  intros _. apply patterns_after_tuple in Hin as (j & Hj & Heq).
  injection Heq as Hr. exists j. split; [lia|]. split; [congruence|].
  intros Ho. apply Hout, lines_after_tuple. exists j. split; [lia|].
  unfold line_key. congruence.
Qed.

Lemma verdict_vanishing p c :
  verdict_at p (S c) = Some "vanishing"%string ->
  blank_line (generation p (S c)).
Proof.
  unfold verdict_at.
  destruct (next_first (generation p c)) as (r0 & Hr0 & Hblank).
  change (next (generation p c)) with (generation p (S c)) in *.
  rewrite Hr0. destruct (Z.eqb_spec r0 0) as [Hz|]; [intros _; apply Hblank, Hz|].
  destruct (decide _); [discriminate|]. destruct (decide _); discriminate.
Qed.

Lemma solve_verdict p label :
  solve p table = Ok label -> label <> "other"%string ->
  exists c, (1 <= c <= 100)%nat /\ verdict_at p c = Some label.
Proof.
  intros Hsolve Hne.
  destruct (solve_counting_spec p) as (label' & c & _ & Hs & Hc & _ & _ & Hv).
  rewrite Hsolve in Hs. injection Hs as <-.
  exists c. split; [exact Hc | apply Hv, Hne].
Qed.

(** X6: 'blinking' is sound.  When [solve] answers 'blinking', two of
    the first 100 generations are the same line at the same place, and
    from the earlier one on the evolution repeats with their distance as
    period. *)
Theorem solve_blinking_periodic (p : Pattern) :
  solve p table = Ok "blinking"%string ->
  (forall i, read (generation p i) table = Ok (generation p (S i))) /\
  exists j c, (1 <= j < c)%nat /\ (c <= 100)%nat /\
    forall k, runs (generation p (c + k)) = runs (generation p (j + k)) /\
              offset (generation p (c + k)) = offset (generation p (j + k)).
Proof.
  intros Hsolve. split; [intros i; apply generation_read|].
  destruct (solve_verdict p _ Hsolve ltac:(discriminate)) as (c & Hc & Hv).
  apply verdict_blinking in Hv as (j & Hj & Hr & Ho).
  exists j, c. split; [lia|]. split; [lia|]. intros k. rewrite !generation_add.
  destruct (iter_next_shift 0 (generation p j) (generation p c) k) as [Hr' Ho'];
    [congruence | lia |].
  split; [exact Hr' | lia].
Qed.

Lemma solve_blinking_periodic_witness :
  exists j c, (1 <= j < c)%nat /\ (c <= 100)%nat /\
    forall k, runs (generation {| runs := [2]; offset := 0; count := 0 |} (c + k)) =
              runs (generation {| runs := [2]; offset := 0; count := 0 |} (j + k)) /\
              offset (generation {| runs := [2]; offset := 0; count := 0 |} (c + k)) =
              offset (generation {| runs := [2]; offset := 0; count := 0 |} (j + k)).
Proof.
  apply (solve_blinking_periodic {| runs := [2]; offset := 0; count := 0 |}).
  vm_compute. reflexivity.
Defined.

(** X7: 'gliding' is sound.  When [solve] answers 'gliding', two of the
    first 100 generations have the same runs at different offsets, and
    from the earlier one on the evolution repeats, moved by the
    difference of the offsets at every period. *)
Theorem solve_gliding_periodic (p : Pattern) :
  solve p table = Ok "gliding"%string ->
  (forall i, read (generation p i) table = Ok (generation p (S i))) /\
  exists j c d, (1 <= j < c)%nat /\ (c <= 100)%nat /\ d <> 0 /\
    forall k, runs (generation p (c + k)) = runs (generation p (j + k)) /\
              offset (generation p (c + k)) = offset (generation p (j + k)) + d.
Proof.
  intros Hsolve. split; [intros i; apply generation_read|].
  destruct (solve_verdict p _ Hsolve ltac:(discriminate)) as (c & Hc & Hv).
  apply verdict_gliding in Hv as (j & Hj & Hr & Ho).
  exists j, c, (offset (generation p c) - offset (generation p j)).
  split; [lia|]. split; [lia|]. split; [lia|].
  intros k. rewrite !generation_add.
  apply iter_next_shift; [congruence | lia].
Qed.

Lemma solve_gliding_periodic_witness :
  exists j c d, (1 <= j < c)%nat /\ (c <= 100)%nat /\ d <> 0 /\
    forall k,
      runs (generation {| runs := [3; 1; 1]; offset := 0; count := 0 |} (c + k))
      = runs (generation {| runs := [3; 1; 1]; offset := 0; count := 0 |} (j + k)) /\
      offset (generation {| runs := [3; 1; 1]; offset := 0; count := 0 |} (c + k))
      = offset (generation {| runs := [3; 1; 1]; offset := 0; count := 0 |} (j + k)) + d.
Proof.
  apply (solve_gliding_periodic {| runs := [3; 1; 1]; offset := 0; count := 0 |}).
  vm_compute. reflexivity.
Defined.

Lemma iter_next_blank p : forall k,
  blank_line p -> runs (Nat.iter (S k) next p) = [0].
Proof.
  induction k as [|k IH]; intros Hp.
  - cbn. rewrite (next_blank p Hp). reflexivity.
  - rewrite Nat.iter_succ, next_blank; [reflexivity|].
    unfold blank_line. rewrite (IH Hp). constructor.
Qed.

(** X8: 'vanishing' is sound and final.  When [solve] answers
    'vanishing', one of the first 100 generations has no filled cell,
    and neither has any later generation: each is the single run 0. *)
Theorem solve_vanishing_forever (p : Pattern) :
  solve p table = Ok "vanishing"%string ->
  (forall i, read (generation p i) table = Ok (generation p (S i))) /\
  exists c, (1 <= c <= 100)%nat /\
    forall k, blank_line (generation p (c + k)) /\
              runs (generation p (c + S k)) = [0].
Proof.
  intros Hsolve. split; [intros i; apply generation_read|].
  destruct (solve_verdict p _ Hsolve ltac:(discriminate)) as (c & Hc & Hv).
  destruct c as [|c]; [lia|].
  apply verdict_vanishing in Hv.
  exists (S c). split; [exact Hc|]. intros k.
  assert (Hlater : forall n, runs (generation p (S c + S n)) = [0])
    by (intros n; rewrite generation_add; apply iter_next_blank, Hv).
  split; [|apply Hlater].
  destruct k as [|k]; [rewrite Nat.add_0_r; exact Hv|].
  unfold blank_line. rewrite Hlater. constructor.
Qed.

Lemma solve_vanishing_forever_witness :
  exists c, (1 <= c <= 100)%nat /\
    forall k,
      blank_line (generation {| runs := [1; 1; 1]; offset := 0; count := 0 |} (c + k)) /\
      runs (generation {| runs := [1; 1; 1]; offset := 0; count := 0 |} (c + S k)) = [0].
Proof.
  apply (solve_vanishing_forever {| runs := [1; 1; 1]; offset := 0; count := 0 |}).
  vm_compute. reflexivity.
Defined.

(** ** The label does not depend on where the line lies *)

Lemma solve_loop_shift k n : forall p p' (lines lines' patterns : gset item),
  runs p' = runs p -> offset p' = offset p + k ->
  (forall o rs, Tuple (o + k :: rs) ∈ lines' <-> Tuple (o :: rs) ∈ lines) ->
  solve_loop n table p' lines' patterns = solve_loop n table p lines patterns.
Proof.
  induction n as [|n IH]; intros p p' lines lines' patterns Hr Ho Hlines;
    [reflexivity|].
  cbn [solve_loop]. rewrite !read_table, !bind_ok.
  rewrite (next_ext (shift k p) p' Hr Ho), next_shift.
  set (q := next p). cbn [runs offset shift].
  destruct (first_item (runs q)) as [r0|e]; [rewrite !bind_ok|reflexivity].
  destruct (r0 =? 0); [reflexivity|].
  destruct (decide (Tuple (offset q + k :: runs q) ∈ lines')) as [Hin|Hout];
    destruct (decide (Tuple (offset q :: runs q) ∈ lines)) as [Hin'|Hout'];
    try reflexivity.
  - exfalso. apply Hout', Hlines, Hin.
  - exfalso. apply Hout, Hlines, Hin'.
  - destruct (decide _); [reflexivity|].
    apply (IH q (shift k q)); [reflexivity | reflexivity|].
    intros o rs. rewrite !elem_of_union, !elem_of_singleton, Hlines.
    split; (intros [H|H]; [left; exact H | right]).
    + injection H as Heq ->. f_equal. f_equal. lia.
    + injection H as -> ->. reflexivity.
Qed.

(** X9: the label is a function of the runs alone.  Two patterns with
    the same runs get the same answer from [solve], whatever their
    offsets and their [count]. *)
Theorem solve_translation (p p' : Pattern) :
  runs p' = runs p -> solve p' table = solve p table.
Proof.
  intros Hr. unfold solve. rewrite Hr.
  apply (solve_loop_shift (offset p' - offset p)); [exact Hr | lia|].
  intros o rs. split; intros H; destruct (set_of_no_tuple _ _ H).
Qed.

Lemma solve_translation_witness :
  solve {| runs := [3; 1; 2]; offset := 40; count := 9 |} table = Ok "gliding"%string.
Proof.
  rewrite (solve_translation {| runs := [3; 1; 2]; offset := 0; count := 0 |}).
  - vm_compute. reflexivity.
  - reflexivity.
Defined.

(** ** Blank input *)

Lemma solve_blank p : blank_line p -> solve p table = Ok "vanishing"%string.
Proof.
  intros Hp. unfold solve. cbn [solve_loop].
  rewrite read_table, bind_ok, (next_blank p Hp). reflexivity.
Qed.

Lemma parse_blank input : forall p,
  Forall (fun c => c = "."%char) (chars input) -> untouched p = true ->
  parse_chars input p = Ok p.
Proof.
  induction input as [|c rest IH]; intros p Hall Hu; [reflexivity|].
  cbn in Hall. apply Forall_cons in Hall as [-> Hall].
  cbn. rewrite insert_eq, Hu. cbn. apply IH; assumption.
Qed.

(** X10: a line without '#' vanishes.  An input made of '.' only, the
    empty text included, is parsed into the single run 0 at offset 0,
    and [solve] answers 'vanishing' for it, as for every pattern without
    filled cells. *)
Theorem solve_blank_input (input : string) :
  Forall (fun c => c = "."%char) (chars input) ->
  toPattern input = Ok {| runs := [0]; offset := 0; count := 0 |} /\
  (p ← toPattern input; solve p table) = Ok "vanishing"%string.
Proof.
  intros Hall.
  assert (Hp : toPattern input = Ok {| runs := [0]; offset := 0; count := 0 |}).
  { unfold toPattern. rewrite parse_blank by (exact Hall || reflexivity).
    reflexivity. }
  split; [exact Hp|]. rewrite Hp, bind_ok.
  apply solve_blank. constructor.
Qed.

Lemma solve_blank_input_witness :
  (p ← toPattern "...."; solve p table) = Ok "vanishing"%string.
Proof.
  apply (solve_blank_input "....").
  repeat (apply Forall_cons; split; [reflexivity|]). apply Forall_nil_2.
Defined.

(** ** [read] on an arbitrary dictionary *)

Lemma getitem_cases states w :
  0 <= w < 32 ->
  match getitem states w with
  | Ok _ => True
  | Raise e => e = KeyError /\ ~ complete_states states
  end.
Proof.
  intros Hw. unfold getitem. destruct (states !! w) eqn:Hl; [exact I|].
  split; [reflexivity|]. intros Hc. destruct (Hc w Hw) as [v Hv]. congruence.
Qed.

Lemma while_run_cases fuel states bit : forall run buffer p,
  (Z.to_nat run <= fuel)%nat -> 0 <= buffer < 32 ->
  match while_run fuel states bit run buffer p with
  | Ok (buffer', _) => 0 <= buffer' < 32
  | Raise e => e = KeyError /\ ~ complete_states states
  end.
Proof.
  induction fuel as [|fuel IH]; intros run buffer p Hfuel Hb; cbn;
    destruct (run >? 0) eqn:Hrun; try exact Hb.
  - apply Z.gtb_lt in Hrun. lia.
  - apply Z.gtb_lt in Hrun.
    pose proof (getitem_cases states _ (slide_range buffer bit)) as Hget.
    destruct (getitem states (slide buffer bit)) as [s|e]; [cbn | exact Hget].
    apply IH; [|apply slide_range].
    destruct (_ || _); lia.
Qed.

Lemma for_runs_cases states rs : forall bit buffer p,
  0 <= buffer < 32 ->
  match for_runs states rs bit buffer p with
  | Ok (buffer', _) => 0 <= buffer' < 32
  | Raise e => e = KeyError /\ ~ complete_states states
  end.
Proof.
  induction rs as [|run rs IH]; intros bit buffer p Hb; [exact Hb|].
  cbn. pose proof (while_run_cases (Z.to_nat run) states bit run buffer p
                     ltac:(lia) Hb) as Hw.
  destruct (while_run _ _ _ _ _ _) as [[buffer' p']|e]; [cbn | exact Hw].
  apply IH, Hw.
Qed.

Lemma while_buffer_cases fuel states : forall buffer p,
  (rounds buffer <= fuel)%nat -> 0 <= buffer < 32 ->
  match while_buffer fuel states buffer p with
  | Ok _ => True
  | Raise e => e = KeyError /\ ~ complete_states states
  end.
Proof.
  induction fuel as [|fuel IH]; intros buffer p Hfuel Hb;
    destruct (slide_out_facts buffer Hb) as (Hr & _ & Hdec & _ & Hzero); cbn.
  - rewrite Hzero by lia. exact I.
  - destruct (buffer >? 0) eqn:Hpos; [|exact I].
    apply Z.gtb_lt in Hpos.
    pose proof (getitem_cases states _ Hr) as Hget.
    destruct (getitem states (slide_out buffer)) as [s|e]; [cbn | exact Hget].
    apply IH; [|exact Hr]. specialize (Hdec Hpos). lia.
Qed.

Lemma read_cases pattern states :
  match read pattern states with
  | Ok _ => True
  | Raise e => e = KeyError /\ ~ complete_states states
  end.
Proof.
  unfold read.
  pose proof (for_runs_cases states (runs pattern) 1 0
                (new_pattern (offset pattern - 2)) ltac:(lia)) as Hf.
  destruct (for_runs _ _ _ _ _) as [[buffer p]|e]; [rewrite bind_ok | exact Hf].
  pose proof (while_buffer_cases 5 states buffer p
                ltac:(apply slide_out_facts, Hf) Hf) as Hw.
  destruct (while_buffer _ _ _ _) as [p'|e]; [exact I | exact Hw].
Qed.

Lemma for_runs_empty rs : forall bit buffer p,
  for_runs ∅ rs bit buffer p
  = if existsb (fun r => 0 <? r) rs then Raise KeyError else Ok (buffer, p).
Proof.
  induction rs as [|run rs IH]; intros bit buffer p; [reflexivity|].
  cbn [for_runs existsb]. destruct (Z.ltb_spec 0 run) as [Hpos|Hneg].
  - replace (Z.to_nat run) with (S (Z.to_nat (run - 1))) by lia.
    cbn. rewrite (proj2 (Z.gtb_lt run 0)) by lia. reflexivity.
  - assert (Hw : while_run (Z.to_nat run) ∅ bit run buffer p = Ok (buffer, p)).
    { destruct (Z.to_nat run); cbn;
        (destruct (Z.gtb_spec run 0); [lia | reflexivity]). }
    rewrite Hw, bind_ok. apply IH.
Qed.

(** X11: the only failure of [read] is a missing key.  Whatever the
    dictionary, [read] either returns or raises [KeyError]; it returns
    when the dictionary has the 32 windows as keys; on the empty
    dictionary it raises exactly when the pattern has a positive run,
    and returns the single run 0 otherwise. *)
Theorem read_missing_key (pattern : Pattern) (states : gmap Z bool) :
  (forall e, read pattern states = Raise e -> e = KeyError) /\
  (complete_states states -> exists q, read pattern states = Ok q) /\
  (read pattern ∅ =
     if existsb (fun r => 0 <? r) (runs pattern) then Raise KeyError
     else Ok {| runs := [0]; offset := offset pattern - 2; count := 0 |}).
Proof.
  pose proof (read_cases pattern states) as Hcases.
  split; [|split].
  - intros e He. rewrite He in Hcases. apply Hcases.
  - intros Hc. destruct (read pattern states) as [q|e]; [exists q; reflexivity|].
    destruct Hcases as [_ Hn]. contradiction.
  - unfold read. rewrite for_runs_empty.
    destruct (existsb _ _); reflexivity.
Qed.

Lemma read_missing_key_witness :
  exists q, read {| runs := [2; 1; 1]; offset := 0; count := 0 |} table = Ok q.
Proof.
  apply (read_missing_key {| runs := [2; 1; 1]; offset := 0; count := 0 |} table).
  intros w Hw. rewrite table_rule by exact Hw. eexists. reflexivity.
Defined.

(** ** [solve] on an arbitrary dictionary *)

Lemma complete_first_item b : exists r0, first_item (runs (complete b)) = Ok r0.
Proof.
  unfold complete. rewrite filled_parity.
  destruct (runs b) as [|r rs] eqn:Hr.
  - exists (count b). reflexivity.
  - exists r. destruct (Nat.even _); cbn; [|rewrite Hr]; reflexivity.
Qed.

Lemma read_returns_completed pattern states q :
  read pattern states = Ok q -> exists b, q = complete b.
Proof.
  unfold read.
  destruct (for_runs _ _ _ _ _) as [[buffer p]|e]; [rewrite bind_ok | discriminate].
  destruct (while_buffer _ _ _ _) as [p'|e]; [rewrite bind_ok | discriminate].
  intros [= <-]. exists p'. reflexivity.
Qed.

Lemma solve_loop_cases n states : forall pattern (lines patterns : gset item),
  match solve_loop n states pattern lines patterns with
  | Ok label => label ∈ ["vanishing"; "blinking"; "gliding"; "other"]%string
  | Raise e => e = KeyError /\ ~ complete_states states
  end.
Proof.
  induction n as [|n IH]; intros pattern lines patterns; cbn [solve_loop].
  - repeat constructor.
  - pose proof (read_cases pattern states) as Hread.
    destruct (read pattern states) as [q|e] eqn:Hq; [rewrite bind_ok | exact Hread].
    destruct (read_returns_completed _ _ _ Hq) as (b & ->).
    destruct (complete_first_item b) as (r0 & ->). rewrite bind_ok.
    destruct (r0 =? 0); [repeat constructor|].
    destruct (decide _); [repeat constructor|].
    destruct (decide _); [repeat constructor|].
    apply IH.
Qed.

(** X12: the only failure of [solve] is a missing key.  Whatever the
    dictionary and the pattern, [solve] either returns one of the four
    labels or raises [KeyError], the latter only when some window has no
    entry; its access to the first run never raises. *)
Theorem solve_missing_key (pattern : Pattern) (states : gmap Z bool) :
  (forall label, solve pattern states = Ok label ->
     label ∈ ["vanishing"; "blinking"; "gliding"; "other"]%string) /\
  (forall e, solve pattern states = Raise e ->
     e = KeyError /\ ~ complete_states states).
Proof.
  pose proof (solve_loop_cases 100 states pattern
                (set_of (0 :: runs pattern)) (set_of (0 :: runs pattern))) as H.
  fold (solve pattern states) in H.
  split.
  - intros label Hl. rewrite Hl in H. exact H.
  - intros e He. rewrite He in H. exact H.
Qed.

Lemma solve_missing_key_witness :
  KeyError = KeyError /\ ~ complete_states ∅.
Proof.
  apply (proj2 (solve_missing_key {| runs := [1]; offset := 0; count := 0 |} ∅)).
  vm_compute. reflexivity.
Defined.

(** ** The driver *)

Lemma classify_well_formed line :
  well_formed line -> exists label, classified line label.
Proof.
  intros Hwf.
  destruct (solve_counting_spec
              (complete (inserts (cell_ops line) (new_pattern 0))))
    as (label & _ & _ & Hsolve & _ & Hin & _).
  exists label. unfold classified. rewrite toPattern_ok, bind_ok by exact Hwf.
  split; assumption.
Qed.

Lemma toPattern_malformed line :
  ~ well_formed line -> toPattern line = Raise ValueError.
Proof.
  intros Hbad. unfold toPattern.
  destruct (parse_chars line (new_pattern 0)) as [p|e] eqn:Hp.
  - exfalso. apply Hbad. exact (parse_chars_valid _ _ _ Hp).
  - apply parse_chars_raise in Hp as [-> _]. reflexivity.
Qed.

Lemma print_labels_well_formed lines :
  Forall well_formed lines ->
  exists labels, Forall2 classified lines labels /\
                 print_labels table lines = (labels, None).
Proof.
  induction 1 as [|line lines Hwf _ (labels & Hall & Hprint)].
  - exists []. split; [constructor | reflexivity].
  - destruct (classify_well_formed line Hwf) as (label & Hlabel).
    exists (label :: labels). split; [constructor; assumption|].
    cbn [print_labels]. rewrite (proj1 Hlabel), Hprint. reflexivity.
Qed.

Lemma print_labels_malformed good bad rest :
  Forall well_formed good -> ~ well_formed bad ->
  exists labels, Forall2 classified good labels /\
                 print_labels table (good ++ bad :: rest) = (labels, Some ValueError).
Proof.
  intros Hgood Hbad.
  induction Hgood as [|line lines Hwf _ (labels & Hall & Hprint)].
  - exists []. split; [constructor|].
    cbn. rewrite (toPattern_malformed bad Hbad). reflexivity.
  - destruct (classify_well_formed line Hwf) as (label & Hlabel).
    exists (label :: labels). split; [constructor; assumption|].
    cbn [app print_labels]. rewrite (proj1 Hlabel), Hprint. reflexivity.
Qed.

(** X13: a well-formed file gets one label per line.  When every line
    is made of '#' and '.', [run] prints, in the order of the lines, the
    label [solve] answers for each of them, then the runtime; a missing
    file gives the one line about patterns.txt. *)
Theorem run_well_formed (lines : list string) (elapsed : string) :
  Forall well_formed lines ->
  run Missing elapsed = ["Where's your patterns.txt, sahib?"%string] /\
  exists labels,
    Forall2 classified lines labels /\
    run (Lines lines) elapsed = labels ++ [String.app "Runtime (s) = " elapsed].
Proof.
  intros Hwf. split; [reflexivity|].
  destruct (print_labels_well_formed lines Hwf) as (labels & Hall & Hprint).
  exists labels. split; [exact Hall|].
  unfold run. rewrite calculateStates_table, Hprint. reflexivity.
Qed.

Lemma run_well_formed_witness :
  exists labels,
    Forall2 classified ["#"; "##"; ""; "###.#"]%string labels /\
    run (Lines ["#"; "##"; ""; "###.#"]%string) "0.03"
    = labels ++ ["Runtime (s) = 0.03"%string].
Proof.
  apply (run_well_formed ["#"; "##"; ""; "###.#"]%string "0.03").
  repeat (apply Forall_cons; split;
    [unfold well_formed; cbn;
     repeat (apply Forall_cons; split; [first [by left | by right]|]);
     apply Forall_nil_2|]).
  apply Forall_nil_2.
Defined.

(** X14: a malformed line ends the batch.  [run] prints the labels of
    the lines before the first line that holds a foreign character, then
    the line 'Oops. Something went sideways.' and nothing else: the
    lines after it are not classified and no runtime is printed. *)
Theorem run_malformed (good : list string) (bad : string) (rest : list string)
    (elapsed : string) :
  Forall well_formed good -> ~ well_formed bad ->
  exists labels,
    Forall2 classified good labels /\
    run (Lines (good ++ bad :: rest)) elapsed
    = labels ++ ["Oops. Something went sideways."%string].
Proof.
  intros Hgood Hbad.
  destruct (print_labels_malformed good bad rest Hgood Hbad)
    as (labels & Hall & Hprint).
  exists labels. split; [exact Hall|].
  unfold run. rewrite calculateStates_table, Hprint. reflexivity.
Qed.

Lemma run_malformed_witness :
  exists labels,
    Forall2 classified ["##"]%string labels /\
    run (Lines ["##"; "#x."; "#"; "###.#"]%string) "0.03"
    = labels ++ ["Oops. Something went sideways."%string].
Proof.
  apply (run_malformed ["##"]%string "#x." ["#"; "###.#"]%string "0.03").
  - apply Forall_cons. split; [|apply Forall_nil_2].
    unfold well_formed. cbn.
    repeat (apply Forall_cons; split; [first [by left | by right]|]).
    apply Forall_nil_2.
  - unfold well_formed. cbn. intros H.
    apply Forall_cons in H as [_ H]. apply Forall_cons in H as [[H|H] _];
      discriminate.
Defined.

(** ** The evolution of the mirror image *)

Lemma decode_from_rev rs : forall c,
  decode_from c (rev rs)
  = rev (decode_from (if Nat.even (length rs) then negb c else c) rs).
Proof.
  induction rs as [|r rs IH]; intros c; [reflexivity|].
  cbn [rev]. rewrite decode_from_snoc, IH, length_rev.
  cbn [length decode_from]. rewrite Nat.even_succ, <- Nat.negb_even.
  rewrite rev_app_distr, rev_replicate.
  destruct (Nat.even (length rs)); cbn [negb]; rewrite ?negb_involutive; reflexivity.
Qed.

Lemma finalized_odd p : finalized p -> Nat.even (length (runs p)) = false.
Proof.
  intros [->|[_ Hodd]]; [reflexivity|].
  apply Nat.odd_spec in Hodd. rewrite <- Nat.negb_odd, Hodd. reflexivity.
Qed.

Lemma decode_mirror p :
  finalized p -> decode (runs (mirror p)) = rev (decode (runs p)).
Proof.
  intros Hp. unfold decode. cbn [runs mirror].
  rewrite decode_from_rev, (finalized_odd p Hp). reflexivity.
Qed.

Lemma line_at_rev off cells x :
  line_at (- (off + Z.of_nat (length cells) - 1)) (rev cells) x
  = line_at off cells (- x).
Proof.
  unfold line_at.
  destruct (Z.leb_spec (- (off + Z.of_nat (length cells) - 1)) x) as [Hlo|Hlo];
    destruct (Z.leb_spec off (- x)) as [Hhi|Hhi]; cbn.
  - rewrite rev_nth by lia. f_equal. lia.
  - apply nth_overflow. rewrite length_rev. lia.
  - symmetry. apply nth_overflow. lia.
  - reflexivity.
Qed.

Lemma cell_mirror p x : finalized p -> cell (mirror p) x = cell p (- x).
Proof.
  intros Hp. unfold cell. rewrite (decode_mirror p Hp).
  cbn [offset mirror]. apply line_at_rev.
Qed.

Lemma rule_mirror line line' x :
  (forall y, line' y = line (- y)) ->
  rule (window line' x) = rule (window line (- x)).
Proof.
  intros H. unfold window. rewrite !H.
  replace (- (x - 2)) with (- x + 2) by lia.
  replace (- (x - 1)) with (- x + 1) by lia.
  replace (- (x + 1)) with (- x - 1) by lia.
  replace (- (x + 2)) with (- x - 2) by lia.
  destruct (line (- x - 2)), (line (- x - 1)), (line (- x)),
    (line (- x + 1)), (line (- x + 2)); reflexivity.
Qed.

Lemma mirror_finalized p : finalized p -> finalized (mirror p).
Proof.
  intros [Hz|[Hpos Hodd]]; [left; cbn; rewrite Hz; reflexivity|].
  right. cbn [runs mirror]. rewrite length_rev. split; [|exact Hodd].
  apply Forall_forall. intros r Hr. rewrite Forall_forall in Hpos.
  apply Hpos. apply list_elem_of_In, in_rev, list_elem_of_In in Hr. exact Hr.
Qed.

Lemma next_mirror p :
  finalized p ->
  runs (next (mirror p)) = rev (runs (next p)) /\
  (decode (runs (next p)) <> [] ->
   offset (next (mirror p)) = offset (mirror (next p))).
Proof.
  intros Hp. pose proof (next_finalized p) as Hfin.
  destruct (same_line_same_runs (mirror (next p)) (next (mirror p))) as [Hr Ho].
  - apply mirror_finalized, Hfin.
  - apply next_finalized.
  - intros x. rewrite (cell_mirror _ _ Hfin), !next_cell.
    symmetry. apply rule_mirror. intros y. apply cell_mirror, Hp.
  - split; [symmetry; exact Hr|].
    intros Hne. symmetry. apply Ho.
    rewrite (decode_mirror _ Hfin). intros H. apply Hne.
    apply (f_equal (@rev bool)) in H. rewrite rev_involutive in H. exact H.
Qed.

(** X15: the evolution is symmetric.  On the computed table, the mirror
    image of a finalized pattern evolves into the mirror image of what
    the pattern evolves into: the same runs in reverse order, at the
    mirrored offset when there is a filled cell. *)
Theorem read_mirror (p q : Pattern) :
  finalized p -> read p table = Ok q ->
  exists q', read (mirror p) table = Ok q' /\
             runs q' = rev (runs q) /\
             (decode (runs q) <> [] -> offset q' = offset (mirror q)).
Proof.
  intros Hp Hq. rewrite read_table in Hq. injection Hq as <-.
  exists (next (mirror p)). split; [apply read_table | apply next_mirror, Hp].
Qed.

Lemma read_mirror_witness :
  exists q', read (mirror {| runs := [3; 1; 1]; offset := 0; count := 0 |}) table = Ok q' /\
             runs q' = rev [3; 1; 1] /\
             (decode [3; 1; 1] <> [] ->
              offset q' = offset (mirror {| runs := [3; 1; 1]; offset := -1; count := 4 |})).
Proof.
  apply (read_mirror {| runs := [3; 1; 1]; offset := 0; count := 0 |}
                     {| runs := [3; 1; 1]; offset := -1; count := 4 |}).
  - right. split; [repeat constructor | exists 1%nat; reflexivity].
  - vm_compute. reflexivity.
Defined.

(** ** The label of the mirror image *)

Lemma finalized_first q :
  finalized q ->
  runs q = [0] \/
  (exists r rs, runs q = r :: rs /\ 0 < r /\ decode (runs q) <> []).
Proof.
  intros Hq. destruct (finalized_cases q Hq) as [[Hz _]|(Hpos & Hh & _)];
    [left; exact Hz|].
  right. destruct (runs q) as [|r rs]; [discriminate|].
  apply Forall_cons in Hpos as [Hr _].
  exists r, rs. split; [reflexivity|]. split; [exact Hr|].
  intros H. rewrite H in Hh. discriminate.
Qed.

Lemma solve_loop_mirror n :
  forall p p' (lines lines' patterns patterns' : gset item),
  finalized p -> runs p' = rev (runs p) ->
  (decode (runs p) <> [] -> offset p' = offset (mirror p)) ->
  (forall o rs,
     Tuple (- (o + Z.of_nat (length (decode rs)) - 1) :: rev rs) ∈ lines'
     <-> Tuple (o :: rs) ∈ lines) ->
  (forall rs, Tuple (0 :: rev rs) ∈ patterns' <-> Tuple (0 :: rs) ∈ patterns) ->
  solve_loop n table p' lines' patterns' = solve_loop n table p lines patterns.
Proof.
  induction n as [|n IH];
    intros p p' lines lines' patterns patterns' Hp Hr Ho Hlines Hpatterns;
    [reflexivity|].
  cbn [solve_loop]. rewrite !read_table, !bind_ok.
  destruct (finalized_first p Hp) as [Hz|(r & rs & _ & _ & Hne)].
  { (* a blank line: both vanish *)
    rewrite Hz in Hr. cbn in Hr.
    rewrite (next_blank p), (next_blank p');
      [reflexivity | unfold blank_line; rewrite Hr; constructor
                   | unfold blank_line; rewrite Hz; constructor]. }
  rewrite (next_ext (mirror p) p' Hr (Ho Hne)).
  destruct (next_mirror p Hp) as [Hr' Ho'].
  pose proof (next_finalized p) as Hq.
  pose proof (next_finalized (mirror p)) as Hq'.
  set (q := next p) in *. set (q' := next (mirror p)) in *.
  destruct (finalized_first q Hq) as [Hz|(r0 & rs0 & Hrq & Hpos & Hneq)].
  { rewrite Hz in Hr'. cbn in Hr'. rewrite Hz, Hr'. reflexivity. }
  destruct (finalized_first q' Hq') as [Hz'|(r0' & rs0' & Hrq' & Hpos' & _)].
  { exfalso. rewrite Hz' in Hr'.
    apply (f_equal (@rev Z)) in Hr'. rewrite rev_involutive in Hr'.
    cbn in Hr'. rewrite <- Hr' in Hrq. injection Hrq as <- _. lia. }
  assert (Hkey : offset q' :: runs q'
                 = - (offset q + Z.of_nat (length (decode (runs q))) - 1)
                   :: rev (runs q)).
  { rewrite Hr', (Ho' Hneq). reflexivity. }
  assert (Hfirst : first_item (runs q) = Ok r0) by (rewrite Hrq; reflexivity).
  assert (Hfirst' : first_item (runs q') = Ok r0') by (rewrite Hrq'; reflexivity).
  rewrite Hfirst, Hfirst', !bind_ok.
  rewrite (proj2 (Z.eqb_neq r0 0)), (proj2 (Z.eqb_neq r0' 0)) by lia.
  rewrite Hkey, Hr'.
  destruct (decide (Tuple (- (offset q + Z.of_nat (length (decode (runs q))) - 1)
                           :: rev (runs q)) ∈ lines')) as [Hin|Hout];
    destruct (decide (Tuple (offset q :: runs q) ∈ lines)) as [Hin'|Hout'];
    try reflexivity.
  - exfalso. apply Hout', Hlines, Hin.
  - exfalso. apply Hout, Hlines, Hin'.
  - destruct (decide (Tuple (0 :: rev (runs q)) ∈ patterns')) as [Hpin|Hpout];
      destruct (decide (Tuple (0 :: runs q) ∈ patterns)) as [Hpin'|Hpout'];
      try reflexivity.
    + exfalso. apply Hpout', Hpatterns, Hpin.
    + exfalso. apply Hpout, Hpatterns, Hpin'.
    + apply (IH q q'); try assumption.
      * intros o rs1. rewrite !elem_of_union, !elem_of_singleton, Hlines.
        split; (intros [H|H]; [left; exact H | right]).
        -- injection H as Hoff Hrev.
           apply (f_equal (@rev Z)) in Hrev. rewrite !rev_involutive in Hrev.
           subst rs1. f_equal. f_equal. lia.
        -- injection H as -> ->. reflexivity.
      * intros rs1. rewrite !elem_of_union, !elem_of_singleton, Hpatterns.
        split; (intros [H|H]; [left; exact H | right]).
        -- injection H as Hrev.
           apply (f_equal (@rev Z)) in Hrev. rewrite !rev_involutive in Hrev.
           subst rs1. reflexivity.
        -- injection H as ->. reflexivity.
Qed.

(** X16: the label of the mirror image.  On the computed table [solve]
    gives a finalized pattern and its mirror image the same label. *)
Theorem solve_mirror (p : Pattern) :
  finalized p -> solve (mirror p) table = solve p table.
Proof.
  intros Hp. unfold solve.
  apply solve_loop_mirror; [exact Hp | reflexivity | reflexivity | |].
  - intros o rs. split; intros H; destruct (set_of_no_tuple _ _ H).
  - intros rs. split; intros H; destruct (set_of_no_tuple _ _ H).
Qed.

Lemma solve_mirror_witness :
  solve (mirror {| runs := [2; 1; 3]; offset := 0; count := 0 |}) table
  = Ok "gliding"%string.
Proof.
  rewrite (solve_mirror {| runs := [2; 1; 3]; offset := 0; count := 0 |}).
  - vm_compute. reflexivity.
  - right. split; [repeat constructor | exists 1%nat; reflexivity].
Defined.

(** ** When [solve] answers 'other' *)

Lemma verdict_none p i :
  verdict_at p (S i) = None <->
  ~ blank_line (generation p (S i)) /\
  (forall j, (1 <= j <= i)%nat ->
     runs (generation p j) <> runs (generation p (S i))).
Proof.
  unfold verdict_at. replace (S i - 1)%nat with i by lia.
  destruct (next_first (generation p i)) as (r0 & Hr0 & Hblank).
  change (next (generation p i)) with (generation p (S i)) in *.
  rewrite Hr0. destruct (Z.eqb_spec r0 0) as [Hz|Hnz].
  { split; [discriminate|]. intros [Hnb _]. exfalso. apply Hnb, Hblank, Hz. }
  assert (Hnb : ~ blank_line (generation p (S i)))
    by (intros H; apply Hnz, Hblank, H).
  destruct (decide (line_key _ ∈ _)) as [Hin|Hout].
  { split; [discriminate|]. intros [_ Hall]. exfalso.
    apply lines_after_tuple in Hin as (j & Hj & Heq).
    injection Heq as _ Hr. apply (Hall j Hj). symmetry. exact Hr. }
  destruct (decide (shape_key _ ∈ _)) as [Hin|Hout'].
  { split; [discriminate|]. intros [_ Hall]. exfalso.
    apply patterns_after_tuple in Hin as (j & Hj & Heq).
    injection Heq as Hr. apply (Hall j Hj). symmetry. exact Hr. }
  split; [|reflexivity]. intros _. split; [exact Hnb|].
  intros j Hj Hr. apply Hout', patterns_after_tuple.
  exists j. split; [exact Hj|]. rewrite Hr. reflexivity.
Qed.

(** X17: what 'other' means.  On the computed table [solve] answers
    'other' exactly when each of the generations 1 to 100 has a filled
    cell and no two of them have the same runs. *)
Theorem solve_other_iff (p : Pattern) :
  solve p table = Ok "other"%string <->
  (forall i, (1 <= i <= 100)%nat -> ~ blank_line (generation p i)) /\
  (forall i j, (1 <= i < j)%nat -> (j <= 100)%nat ->
     runs (generation p i) <> runs (generation p j)).
Proof.
  destruct (solve_counting_spec p) as (label & c & _ & Hsolve & _ & _ & Hother & _).
  rewrite Hsolve. split.
  - intros [= ->]. pose proof (proj1 Hother eq_refl) as Hnone. split.
    + intros [|i] Hi; [lia|]. apply (verdict_none p i), Hnone, Hi.
    + intros i [|j] Hij Hj; [lia|].
      apply (proj2 (proj1 (verdict_none p j) (Hnone (S j) ltac:(lia)))). lia.
  - intros [Hnb Hdistinct]. f_equal. apply Hother.
    intros [|i] Hi; [lia|]. apply verdict_none. split; [apply Hnb, Hi|].
    intros j Hj. apply Hdistinct; lia.
Qed.

Lemma solve_other_iff_witness :
  solve {| runs := [2]; offset := 0; count := 0 |} table <> Ok "other"%string.
Proof.
  intros H. apply (solve_other_iff {| runs := [2]; offset := 0; count := 0 |}) in H.
  destruct H as [_ H]. apply (H 1%nat 3%nat); [lia | lia|].
  vm_compute. reflexivity.
Defined.
